(** * prep_uci_dataset: movetext to UCI move prefixes

    A shallow embedding of [prep_uci_dataset.py] and the properties of its
    four stages: the movetext normaliser (three [re.sub] calls and a
    whitespace split), the SAN-to-UCI translator, the prefix generator with
    its board renderer, and the corpus driver.

    Python values are modelled as follows.
    - [str] is [string]; inside the regular-expression code a string is the
      list of its characters.  A character is a code point below 256.
    - A raised exception is the [Raise] branch of [result]; [try]/[except]
      is a match on it.
    - The [chess] package is no part of the repository: its operations are
      the fields of the class [Chess], and what its documentation promises
      about them is the class [ChessLaws].  Module [PyChess] gives an
      instance that plays by the rules of chess. *)

From Stdlib Require Import Ascii String.
From Stdlib Require Import List Bool Arith ZArith Lia DecimalString.
Import ListNotations.

Set Implicit Arguments.

Local Open Scope string_scope.
Local Open Scope list_scope.
Local Open Scope nat_scope.

(** ** Exceptions *)

(** The exception classes the program can meet.  All of them derive from
    [Exception]; the three chess errors derive from [ValueError];
    [OtherException] stands for any class that does not. *)
Inductive exn : Type :=
| InvalidMoveError
| IllegalMoveError
| AmbiguousMoveError
| ValueError
| TypeError
| AssertionError
| IndexError
| OtherException (name : string).

(** [except (chess.InvalidMoveError, chess.IllegalMoveError, ValueError)]:
    the classes this handler catches. *)
Definition is_move_error (e : exn) : bool :=
  match e with
  | InvalidMoveError | IllegalMoveError | AmbiguousMoveError | ValueError => true
  | _ => false
  end.

Inductive result (A : Type) : Type :=
| Ok (a : A)
| Raise (e : exn).

Arguments Ok {A} a.
Arguments Raise {A} e.

Definition bind {A B : Type} (r : result A) (f : A -> result B) : result B :=
  match r with
  | Ok a => f a
  | Raise e => Raise e
  end.

Notation "x <- r ;; k" := (bind r (fun x => k))
  (at level 61, r at next level, right associativity).

(** ** Characters *)

Definition chr := ascii.
Definition text := list chr.

Definition code (c : chr) : nat := nat_of_ascii c.

(** [\d] on a [str] pattern: the decimal digits. *)
Definition is_digit (c : chr) : bool :=
  (48 <=? code c) && (code c <=? 57).

(** [\s], [str.split()] and [str.strip()] share one notion of white space:
    tab to carriage return, the four separators 28 to 31, the blank, and in
    the upper half NEL and the no-break space. *)
Definition is_space (c : chr) : bool :=
  let n := code c in
  ((9 <=? n) && (n <=? 13)) || ((28 <=? n) && (n <=? 32))
  || (n =? 133) || (n =? 160).

Definition is_chr (a c : chr) : bool := Ascii.eqb a c.
Definition not_chr (a c : chr) : bool := negb (Ascii.eqb a c).

Arguments is_digit c : simpl never.
Arguments is_space c : simpl never.
Arguments is_chr a c : simpl never.
Arguments not_chr a c : simpl never.

Definition chars (s : string) : text := list_ascii_of_string s.
Definition str (t : text) : string := string_of_list_ascii t.

(** ** Regular expressions, matched by backtracking *)

(** The fragment of [re] syntax the three patterns use.  Every starred
    item in them is a character class. *)
Inductive regex : Type :=
| Cls (p : chr -> bool)          (* one character of a class              *)
| Star (p : chr -> bool)         (* [p*], greedy                          *)
| Seq (r1 r2 : regex)            (* [r1 r2]                               *)
| Alt (r1 r2 : regex)            (* [r1|r2], left branch first            *)
| Eps                            (* the empty pattern                     *)
| Eos.                           (* [$] without MULTILINE                 *)

Definition Chr (a : chr) : regex := Cls (is_chr a).
Definition Plus (p : chr -> bool) : regex := Seq (Cls p) (Star p).
Definition Opt (r : regex) : regex := Alt r Eps.

Fixpoint Lit (t : text) : regex :=
  match t with
  | [] => Eps
  | a :: t' => Seq (Chr a) (Lit t')
  end.

Definition cont := text -> option text.

(** Greedy star of a class: take the character when it is in the class and
    try the rest; when that fails, give it back and go on from here. *)
Fixpoint star_cls (p : chr -> bool) (s : text) (k : cont) : option text :=
  match s with
  | c :: s' =>
      if p c then
        match star_cls p s' k with
        | Some rest => Some rest
        | None => k s
        end
      else k s
  | [] => k []
  end.

(** [$] matches at the end and just before a newline that ends the string. *)
Definition at_end (s : text) : bool :=
  match s with
  | [] => true
  | [c] => code c =? 10
  | _ => false
  end.

(** [rmatch r s k]: match [r] at the start of [s], hand what is left to
    [k], and backtrack into [r] when [k] fails. *)
Fixpoint rmatch (r : regex) (s : text) (k : cont) : option text :=
  match r with
  | Cls p =>
      match s with
      | c :: s' => if p c then k s' else None
      | [] => None
      end
  | Star p => star_cls p s k
  | Seq r1 r2 => rmatch r1 s (fun s' => rmatch r2 s' k)
  | Alt r1 r2 =>
      match rmatch r1 s k with
      | Some rest => Some rest
      | None => rmatch r2 s k
      end
  | Eps => k s
  | Eos => if at_end s then k s else None
  end.

(** A match of [r] starting exactly at the head of [s]; the value is the
    text after the match. *)
Definition match_at (r : regex) (s : text) : option text :=
  rmatch r s (fun rest => Some rest).

(** [re.sub(r, '', s)]: scan from the left; where a match consumes
    something, drop it and go on behind it; elsewhere copy one character.
    A match that consumes nothing is replaced by nothing, so it copies the
    character as well.  The fuel is the length of the text. *)
Fixpoint sub_loop (r : regex) (fuel : nat) (s : text) : text :=
  match fuel with
  | O => s
  | S fuel' =>
      match s with
      | [] => []
      | c :: s' =>
          match match_at r s with
          | Some rest =>
              if length rest <? length s then sub_loop r fuel' rest
              else c :: sub_loop r fuel' s'
          | None => c :: sub_loop r fuel' s'
          end
      end
  end.

Definition re_sub (r : regex) (s : text) : text := sub_loop r (length s) s.

(** ** The three patterns of the normaliser *)

Definition lbrace : chr := "{"%char.
Definition rbrace : chr := "}"%char.
Definition dot : chr := "."%char.

(** [\{[^}]*\}] *)
Definition ANNOTATION : regex :=
  Seq (Chr lbrace) (Seq (Star (not_chr rbrace)) (Chr rbrace)).

(** [\d+\.\.?\.?\s*] *)
Definition MOVE_NUMBER : regex :=
  Seq (Plus is_digit)
    (Seq (Chr dot) (Seq (Opt (Chr dot)) (Seq (Opt (Chr dot)) (Star is_space)))).

(** The alternatives [0-1|1-0|1/2-1/2], in the order of the pattern. *)
Definition result_markers : list string := ["0-1"; "1-0"; "1/2-1/2"].

Definition MARKER : regex :=
  Alt (Lit (chars "0-1")) (Alt (Lit (chars "1-0")) (Lit (chars "1/2-1/2"))).

(** [\s*(0-1|1-0|1/2-1/2)\s*$] *)
Definition RESULT : regex :=
  Seq (Star is_space) (Seq MARKER (Seq (Star is_space) Eos)).

(** ** [str.split()] and [str.strip()] *)

(** [split_ws cur s]: [cur] holds, reversed, the token being read. *)
Fixpoint split_ws (cur : text) (s : text) : list text :=
  match s with
  | [] => match cur with [] => [] | _ => [rev cur] end
  | c :: s' =>
      if is_space c then
        match cur with
        | [] => split_ws [] s'
        | _ => rev cur :: split_ws [] s'
        end
      else split_ws (c :: cur) s'
  end.

Definition py_split (s : text) : list text := split_ws [] s.

Fixpoint lstrip (s : text) : text :=
  match s with
  | c :: s' => if is_space c then lstrip s' else s
  | [] => []
  end.

Definition py_strip (s : text) : text := rev (lstrip (rev (lstrip s))).

Definition truthy (s : text) : bool :=
  match s with [] => false | _ => true end.

(** ** The normaliser: lines 20 to 29 *)

Definition strip_annotations (s : text) : text := re_sub ANNOTATION s.
Definition strip_move_numbers (s : text) : text := re_sub MOVE_NUMBER s.
Definition strip_result (s : text) : text := re_sub RESULT s.

Definition clean (movetext : text) : text :=
  strip_result (strip_move_numbers (strip_annotations movetext)).

(** [[m.strip() for m in cleaned.split() if m.strip()]] *)
Definition move_tokens_of (cleaned : text) : list text :=
  map py_strip (filter (fun m => truthy (py_strip m)) (py_split cleaned)).

Definition normalize (movetext : string) : list string :=
  map str (move_tokens_of (clean (chars movetext))).

(** *** What the claims speak of *)

(** A whole-string match, as [re.fullmatch] gives it. *)
Definition full_match (r : regex) (t : text) : bool :=
  match rmatch r t (fun rest => match rest with [] => Some [] | _ => None end) with
  | Some _ => true
  | None => false
  end.

(** Digits followed by one or more periods: [\d+\.+]. *)
Definition NUMBER_MARK : regex := Seq (Plus is_digit) (Plus (is_chr dot)).

Definition is_move_number (tok : string) : bool := full_match NUMBER_MARK (chars tok).

Definition is_result_marker (tok : string) : bool :=
  existsb (String.eqb tok) result_markers.

(** A digit with a period right behind it, anywhere in the text. *)
Fixpoint numdot (s : text) : bool :=
  match s with
  | d :: s' =>
      match s' with
      | c :: _ => (is_digit d && is_chr dot c) || numdot s'
      | [] => false
      end
  | [] => false
  end.

Definition spaces (s : text) : Prop := forallb is_space s = true.

Fixpoint drop_while (p : chr -> bool) (s : text) : text :=
  match s with
  | c :: s' => if p c then drop_while p s' else s
  | [] => []
  end.

Fixpoint take_while (p : chr -> bool) (s : text) : text :=
  match s with
  | c :: s' => if p c then c :: take_while p s' else []
  | [] => []
  end.

(** ** The chess package *)

(** What the program uses of the [chess] package.  A [chess.Board] is
    mutable and [push] changes it in place; here [push] returns the new
    board.  Each operation that can raise returns a [result]. *)
Class Chess : Type := {
  Board : Type;
  Move : Type;
  new_board : Board;                            (* chess.Board()           *)
  parse_san : Board -> string -> result Move;   (* board.parse_san(san)    *)
  uci : Move -> string;                         (* move.uci()              *)
  from_uci : string -> result Move;             (* chess.Move.from_uci(s)  *)
  push : Board -> Move -> result Board;         (* board.push(move)        *)
  board_str : Board -> string;                  (* str(board)              *)
  null_move : Move;                             (* chess.Move.null()       *)
  is_legal : Board -> Move -> bool              (* board.is_legal(move)    *)
}.

(** What the package documents about these operations.
    - [parse_san]: "The returned move is guaranteed to be either legal or
      a null move", and it raises [ValueError] (one of its three
      subclasses) when the SAN is invalid, illegal or ambiguous.
    - [Move.from_uci] parses what [Move.uci] prints.
    - [push]: "Moves are not checked for legality"; it does not fail on a
      legal or a null move and raises none of the move errors. *)
Class ChessLaws (C : Chess) : Prop := {
  parse_san_sound : forall b s m,
    parse_san b s = Ok m -> is_legal b m = true \/ m = null_move;
  parse_san_raises : forall b s e,
    parse_san b s = Raise e -> is_move_error e = true;
  from_uci_uci : forall b m,
    is_legal b m = true \/ m = null_move -> from_uci (uci m) = Ok m;
  push_defined : forall b m,
    is_legal b m = true \/ m = null_move -> exists b', push b m = Ok b';
  push_raises : forall b m e,
    push b m = Raise e -> is_move_error e = false
}.

Arguments parse_san_sound {C ChessLaws} [b s m] _.
Arguments parse_san_raises {C ChessLaws} [b s e] _.
Arguments from_uci_uci {C ChessLaws} [b m] _.
Arguments push_defined {C ChessLaws} [b m] _.
Arguments push_raises {C ChessLaws} [b m e] _.

(** ** Python values *)

(** The value of a field of a corpus record. *)
Inductive pyval : Type :=
| PyNone
| PyStr (s : string)
| PyInt (z : Z).

(** ' '.join(l) *)
Definition join (sep : string) (l : list string) : string := String.concat sep l.

(** [range(lo, hi)] *)
Definition py_range (lo hi : Z) : list Z :=
  map (fun k => (lo + Z.of_nat k)%Z) (seq 0 (Z.to_nat (hi - lo))).

(** [l[:i]]: a negative [i] counts from the end. *)
Definition slice_to {A : Type} (l : list A) (i : Z) : list A :=
  if (i <? 0)%Z then firstn (Z.to_nat (Z.of_nat (length l) + i)) l
  else firstn (Z.to_nat i) l.

(** [l[i]] *)
Definition getitem {A : Type} (l : list A) (i : Z) : result A :=
  let j := if (i <? 0)%Z then (Z.of_nat (length l) + i)%Z else i in
  if (j <? 0)%Z then Raise IndexError
  else match nth_error l (Z.to_nat j) with
       | Some a => Ok a
       | None => Raise IndexError
       end.

(** A corpus record: a dict from column names to values. *)
Definition game : Type := list (string * pyval).

Fixpoint lookup (key : string) (g : game) : option pyval :=
  match g with
  | [] => None
  | (k, v) :: g' => if String.eqb k key then Some v else lookup key g'
  end.

(** The two columns of the output table. *)
Record table : Type := {
  uci_prefix : list string;
  board_ascii : list string
}.

(** ** The program *)

Section Program.

Context {C : Chess}.

(** Lines 35 to 42, the loop over the tokens.  The identifier is appended
    before the move is pushed, so it stays when [push] raises a move
    error. *)
Fixpoint san_loop (board : Board) (uci_moves : list string)
    (move_tokens : list string) : result (list string) :=
  match move_tokens with
  | [] => Ok uci_moves
  | san_move :: rest =>
      match parse_san board san_move with
      | Raise e => if is_move_error e then Ok uci_moves else Raise e
      | Ok move =>
          let uci_moves := uci_moves ++ [uci move] in
          match push board move with
          | Raise e => if is_move_error e then Ok uci_moves else Raise e
          | Ok board => san_loop board uci_moves rest
          end
      end
  end.

(** Lines 19 to 44, the body of the outer [try].  [re.sub] raises
    [TypeError] on a value that is no string. *)
Definition extract_body (movetext : pyval) : result (list string) :=
  match movetext with
  | PyStr s => san_loop new_board [] (normalize s)
  | _ => Raise TypeError
  end.

(** Lines 13 to 47.  [except Exception] catches every class of [exn]. *)
Definition extract_uci_moves_from_movetext (movetext : pyval)
    : result (list string) :=
  match extract_body movetext with
  | Ok uci_moves => Ok uci_moves
  | Raise _ => Ok []
  end.

(** Lines 53 to 60. *)
Fixpoint board_loop (board : Board) (uci_moves : list string) : result string :=
  match uci_moves with
  | [] => Ok (board_str board)
  | uci_move :: rest =>
      match (move <- from_uci uci_move ;; push board move) with
      | Ok board => board_loop board rest
      | Raise e =>
          if is_move_error e then Ok (board_str new_board) else Raise e
      end
  end.

Definition get_board_ascii (uci_moves : list string) : result string :=
  board_loop new_board uci_moves.

(** Lines 73 to 80. *)
Fixpoint prefix_loop (uci_moves : list string) (idx : list Z)
    (prefixes board_states : list string)
    : result (list string * list string) :=
  match idx with
  | [] => Ok (prefixes, board_states)
  | i :: idx' =>
      let prefix := slice_to uci_moves i in
      let prefix_str := join " " prefix in
      let prefixes := prefixes ++ [prefix_str] in
      board_ascii <- get_board_ascii prefix ;;
      prefix_loop uci_moves idx' prefixes (board_states ++ [board_ascii])
  end.

(** Lines 63 to 82. *)
Definition generate_move_prefixes (uci_moves : list string) (min_moves : Z)
    : result (list string * list string) :=
  let start_idx := Z.max 1 min_moves in
  prefix_loop uci_moves
    (py_range start_idx (Z.of_nat (length uci_moves) + 1)) [] [].

Definition default_min_moves : Z := 15.

(** Lines 97 to 120, one turn of the loop over the games; [Ok acc] with
    the accumulators unchanged is a [continue]. *)
Definition process_game (acc : table) (g : game) : result table :=
  match lookup "movetext" g with
  | None => Ok acc
  | Some movetext =>
      match movetext with
      | PyNone => Ok acc
      | _ =>
          uci_moves <- extract_uci_moves_from_movetext movetext ;;
          if length uci_moves =? 0 then Ok acc
          else if length uci_moves <? 15 then Ok acc
          else
            pb <- generate_move_prefixes uci_moves default_min_moves ;;
            Ok {| uci_prefix := uci_prefix acc ++ fst pb;
                  board_ascii := board_ascii acc ++ snd pb |}
      end
  end.

Fixpoint games_loop (input_dataset : list game) (idx : list Z) (acc : table)
    : result table :=
  match idx with
  | [] => Ok acc
  | i :: idx' =>
      g <- getitem input_dataset i ;;
      acc <- process_game acc g ;;
      games_loop input_dataset idx' acc
  end.

Definition empty_table : table := {| uci_prefix := []; board_ascii := [] |}.

(** Lines 85 to 127.  [if max_games:] is false for [None] and for 0. *)
Definition process_dataset (input_dataset : list game) (max_games : option Z)
    : result table :=
  let num_games := Z.of_nat (length input_dataset) in
  let num_games :=
    match max_games with
    | Some m => if negb (m =? 0)%Z then Z.min num_games m else num_games
    | None => num_games
    end in
  games_loop input_dataset (py_range 0 num_games) empty_table.

(** *** Replaying, for the statements *)

(** Replaying identifiers: parse each and push it. *)
Fixpoint replay (board : Board) (uci_moves : list string) : result Board :=
  match uci_moves with
  | [] => Ok board
  | u :: rest =>
      move <- from_uci u ;;
      board <- push board move ;;
      replay board rest
  end.

(** [accepted b toks ms b']: from [b] every token of [toks] is parsed and
    pushed in turn, giving the moves [ms] and the position [b']. *)
Inductive accepted : Board -> list string -> list Move -> Board -> Prop :=
| accepted_nil b : accepted b [] [] b
| accepted_cons b tok toks m b1 ms b' :
    parse_san b tok = Ok m ->
    push b m = Ok b1 ->
    accepted b1 toks ms b' ->
    accepted b (tok :: toks) (m :: ms) b'.

(** A move the translator may hand out: legal, or the null move. *)
Definition legal_or_null (b : Board) (m : Move) : Prop :=
  is_legal b m = true \/ m = null_move.

Definition legal (b : Board) (m : Move) : Prop := is_legal b m = true.

(** [playable ok l]: every element of [l] parses as a move that is [ok]
    in the position reached by replaying the elements before it from the
    initial position. *)
Definition playable (ok : Board -> Move -> Prop) (l : list string) : Prop :=
  forall i u, nth_error l i = Some u ->
    exists b m, replay new_board (firstn i l) = Ok b
                /\ from_uci u = Ok m /\ ok b m.

(** A canonical move list: the identifiers of moves parsed and pushed in
    turn from the initial position. *)
Definition canonical (l : list string) : Prop :=
  exists toks ms b, accepted new_board toks ms b /\ l = map uci ms.

(** The rendering after the first [i] identifiers, when they replay. *)
Definition board_after (l : list string) (i : Z) : string :=
  match get_board_ascii (slice_to l i) with
  | Ok s => s
  | Raise _ => EmptyString
  end.

(** The loop over the games, by recursion on the corpus. *)
Fixpoint run_games (ds : list game) (acc : table) : result table :=
  match ds with
  | [] => Ok acc
  | g :: ds' => acc' <- process_game acc g ;; run_games ds' acc'
  end.

End Program.

(** ** A model of the chess package *)

(** Modelled from the documentation of python-chess, the package that the
    source imports as [chess] and that the repository does not contain.
    The module plays its part: positions on an 8 by 8 board, the moves of
    the pieces with castling, en passant and promotion, SAN parsing
    against the legal moves, UCI printing and parsing, [push], and the text
    rendering of a board.  The move counters and the move stack, which the
    program never reads, are left out. *)
Module PyChess.

Inductive color : Type := White | Black.
Inductive piece_type : Type := Pawn | Knight | Bishop | Rook | Queen | King.
Definition piece : Type := (piece_type * color)%type.

Definition color_eqb (a b : color) : bool :=
  match a, b with White, White | Black, Black => true | _, _ => false end.

Definition ptype_eqb (a b : piece_type) : bool :=
  match a, b with
  | Pawn, Pawn | Knight, Knight | Bishop, Bishop
  | Rook, Rook | Queen, Queen | King, King => true
  | _, _ => false
  end.

Definition opt_ptype_eqb (a b : option piece_type) : bool :=
  match a, b with
  | None, None => true
  | Some x, Some y => ptype_eqb x y
  | _, _ => false
  end.

Definition opposite (c : color) : color :=
  match c with White => Black | Black => White end.

(** Squares are numbered 0 (a1), 1 (b1), ... 63 (h8). *)
Definition square_file (sq : nat) : nat := sq mod 8.
Definition square_rank (sq : nat) : nat := sq / 8.

Definition A1 : nat := 0.
Definition C1 : nat := 2.
Definition D1 : nat := 3.
Definition E1 : nat := 4.
Definition F1 : nat := 5.
Definition G1 : nat := 6.
Definition H1 : nat := 7.
Definition A8 : nat := 56.
Definition C8 : nat := 58.
Definition D8 : nat := 59.
Definition E8 : nat := 60.
Definition F8 : nat := 61.
Definition G8 : nat := 62.
Definition H8 : nat := 63.

(** [chess.Move]: a null move has both squares 0 and nothing else. *)
Record move : Type := Mv {
  from_square : nat;
  to_square : nat;
  promotion : option piece_type;
  drop : option piece_type
}.

Definition move_null : move := Mv 0 0 None None.

Definition move_eqb (a b : move) : bool :=
  (from_square a =? from_square b) && (to_square a =? to_square b)
  && opt_ptype_eqb (promotion a) (promotion b)
  && opt_ptype_eqb (drop a) (drop b).

(** [bool(move)] *)
Definition move_bool (m : move) : bool := negb (move_eqb m move_null).

(** [chess.Board]: piece placement, side to move, the rooks that may
    still castle, and the en passant square. *)
Record board : Type := Bd {
  cells : list (option piece);
  turn : color;
  castling_rights : list nat;
  ep_square : option nat
}.

Definition back_rank : list piece_type :=
  [Rook; Knight; Bishop; Queen; King; Bishop; Knight; Rook].

Definition starting_cells : list (option piece) :=
  map (fun t => Some (t, White)) back_rank
  ++ repeat (Some (Pawn, White)) 8
  ++ repeat None 32
  ++ repeat (Some (Pawn, Black)) 8
  ++ map (fun t => Some (t, Black)) back_rank.

Definition starting_board : board :=
  Bd starting_cells White [A1; H1; A8; H8] None.

Definition piece_at (b : board) (sq : nat) : option piece :=
  nth sq (cells b) None.

Fixpoint set_nth {A : Type} (l : list A) (n : nat) (a : A) : list A :=
  match l, n with
  | [], _ => []
  | _ :: l', O => a :: l'
  | x :: l', S n' => x :: set_nth l' n' a
  end.

Definition with_cells (b : board) (cs : list (option piece)) : board :=
  Bd cs (turn b) (castling_rights b) (ep_square b).

Definition set_cell (b : board) (sq : nat) (p : option piece) : board :=
  with_cells b (set_nth (cells b) sq p).

Definition is_piece (b : board) (sq : nat) (t : piece_type) (c : color) : bool :=
  match piece_at b sq with
  | Some (t', c') => ptype_eqb t t' && color_eqb c c'
  | None => false
  end.

Definition occupied (b : board) (sq : nat) : bool :=
  match piece_at b sq with Some _ => true | None => false end.

Definition occupied_co (b : board) (c : color) (sq : nat) : bool :=
  match piece_at b sq with Some (_, c') => color_eqb c c' | None => false end.

(** *** Attacks *)

(** The square [df] files and [dr] ranks away, when it is on the board. *)
Definition offset (sq : nat) (df dr : Z) : option nat :=
  let f := (Z.of_nat (square_file sq) + df)%Z in
  let r := (Z.of_nat (square_rank sq) + dr)%Z in
  if ((0 <=? f) && (f <? 8) && (0 <=? r) && (r <? 8))%Z
  then Some (Z.to_nat (r * 8 + f)) else None.

Fixpoint ray (b : board) (fuel : nat) (sq : nat) (df dr : Z) : list nat :=
  match fuel with
  | O => []
  | S fuel' =>
      match offset sq df dr with
      | None => []
      | Some t => if occupied b t then [t] else t :: ray b fuel' t df dr
      end
  end.

Definition steps (sq : nat) (ds : list (Z * Z)) : list nat :=
  flat_map (fun d => match offset sq (fst d) (snd d) with
                     | Some t => [t] | None => [] end) ds.

Definition rays (b : board) (sq : nat) (ds : list (Z * Z)) : list nat :=
  flat_map (fun d => ray b 7 sq (fst d) (snd d)) ds.

Definition knight_steps : list (Z * Z) :=
  [(1, 2); (2, 1); (2, -1); (1, -2); (-1, -2); (-2, -1); (-2, 1); (-1, 2)]%Z.
Definition king_steps : list (Z * Z) :=
  [(0, 1); (1, 1); (1, 0); (1, -1); (0, -1); (-1, -1); (-1, 0); (-1, 1)]%Z.
Definition diagonals : list (Z * Z) := [(1, 1); (1, -1); (-1, -1); (-1, 1)]%Z.
Definition straights : list (Z * Z) := [(0, 1); (1, 0); (0, -1); (-1, 0)]%Z.

Definition forward (c : color) : Z := match c with White => 1%Z | Black => (-1)%Z end.

Definition pawn_attacks (c : color) (sq : nat) : list nat :=
  steps sq [((-1)%Z, forward c); (1%Z, forward c)].

(** The squares attacked by the piece on [sq]. *)
Definition attacks (b : board) (sq : nat) : list nat :=
  match piece_at b sq with
  | None => []
  | Some (Pawn, c) => pawn_attacks c sq
  | Some (Knight, _) => steps sq knight_steps
  | Some (King, _) => steps sq king_steps
  | Some (Bishop, _) => rays b sq diagonals
  | Some (Rook, _) => rays b sq straights
  | Some (Queen, _) => rays b sq (diagonals ++ straights)
  end.

Definition mem (n : nat) (l : list nat) : bool := existsb (Nat.eqb n) l.

Definition squares : list nat := seq 0 64.

Definition is_attacked_by (b : board) (c : color) (sq : nat) : bool :=
  existsb (fun s => occupied_co b c s && mem sq (attacks b s)) squares.

Definition king (b : board) (c : color) : option nat :=
  find (fun s => is_piece b s King c) squares.

(** *** Making a move *)

Definition home_rank (c : color) : nat := match c with White => 0 | Black => 7 end.

(** Rooks that may still castle: on their corner, with the king at home. *)
Definition clean_castling_rights (b : board) : list nat :=
  filter (fun r =>
    is_piece b r Rook (if r <? 8 then White else Black)
    && mem r [A1; H1; A8; H8]
    && is_piece b (if r <? 8 then E1 else E8) King (if r <? 8 then White else Black))
    (castling_rights b).

(** A castling move is written king-to-target outside and king-to-rook
    inside [push]. *)
Definition to_chess960 (b : board) (m : move) : move :=
  let kings_at sq := match piece_at b sq with Some (King, _) => true | _ => false end in
  let rooks_at sq := match piece_at b sq with Some (Rook, _) => true | _ => false end in
  if (from_square m =? E1) && kings_at E1 then
    if (to_square m =? G1) && negb (rooks_at G1) then Mv E1 H1 None None
    else if (to_square m =? C1) && negb (rooks_at C1) then Mv E1 A1 None None
    else m
  else if (from_square m =? E8) && kings_at E8 then
    if (to_square m =? G8) && negb (rooks_at G8) then Mv E8 H8 None None
    else if (to_square m =? C8) && negb (rooks_at C8) then Mv E8 A8 None None
    else m
  else m.

Definition from_chess960 (b : board) (m : move) : move :=
  let kings_at sq := match piece_at b sq with Some (King, _) => true | _ => false end in
  if (from_square m =? E1) && kings_at E1 then
    if to_square m =? H1 then Mv E1 G1 None None
    else if to_square m =? A1 then Mv E1 C1 None None
    else m
  else if (from_square m =? E8) && kings_at E8 then
    if to_square m =? H8 then Mv E8 G8 None None
    else if to_square m =? A8 then Mv E8 C8 None None
    else m
  else m.

Definition remove_all (xs : list nat) (l : list nat) : list nat :=
  filter (fun r => negb (mem r xs)) l.

Definition drop_rank (rk : nat) (l : list nat) : list nat :=
  filter (fun r => negb (square_rank r =? rk)) l.

(** The part of [push] behind the drop case: the piece of type [t] that
    stood on the origin square is moved. *)
Definition push_piece (b : board) (m : move) (t : piece_type) (rights : list nat)
    : board :=
  let us := turn b in
  let ep := ep_square b in
  let src := from_square m in
  let dst := to_square m in
  let b1 := set_cell b src None in
  let captured := piece_at b1 dst in
  let rights := remove_all [src; dst] rights in
  let rights :=
    match t, captured with
    | King, _ => drop_rank (home_rank us) rights
    | _, Some (King, _) =>
        if square_rank dst =? home_rank (opposite us)
        then drop_rank (home_rank (opposite us)) rights else rights
    | _, _ => rights
    end in
  let is_pawn := ptype_eqb t Pawn in
  let double_w := is_pawn && (dst =? src + 16) && (square_rank src =? 1) in
  let double_b := is_pawn && (src =? dst + 16) && (square_rank src =? 6) in
  let diff := (Z.of_nat dst - Z.of_nat src)%Z in
  let en_passant :=
    is_pawn && negb double_w && negb double_b
    && match ep with Some e => dst =? e | None => false end
    && mem (Z.abs_nat diff) [7; 9]
    && match captured with None => true | Some _ => false end in
  let new_ep :=
    if double_w then Some (src + 8)
    else if double_b then Some (src - 8)
    else None in
  let b2 :=
    if en_passant
    then set_cell b1 (match us with White => dst - 8 | Black => dst + 8 end) None
    else b1 in
  let t := match promotion m with Some p => p | None => t end in
  let castling := ptype_eqb t King && occupied_co b2 us dst in
  let b3 :=
    if castling then
      let a_side := square_file dst <? square_file src in
      let b3 := set_cell (set_cell b2 src None) dst None in
      let base := home_rank us * 8 in
      if a_side
      then set_cell (set_cell b3 (base + C1) (Some (King, us)))
             (base + D1) (Some (Rook, us))
      else set_cell (set_cell b3 (base + G1) (Some (King, us)))
             (base + F1) (Some (Rook, us))
    else set_cell b2 dst (Some (t, us)) in
  Bd (cells b3) (opposite us) rights new_ep.

(** [board.push(move)].  The move is not checked; the one thing [push]
    insists on is a piece on the origin square.  A null move passes the
    turn; a drop puts a piece on the target square. *)
Definition push (b : board) (m0 : move) : result board :=
  let m := to_chess960 b m0 in
  let rights := clean_castling_rights b in
  let us := turn b in
  if negb (move_bool m) then Ok (Bd (cells b) (opposite us) rights None)
  else
    match drop m with
    | Some t =>
        Ok (Bd (set_nth (cells b) (to_square m) (Some (t, us)))
              (opposite us) rights None)
    | None =>
        match piece_at b (from_square m) with
        | None => Raise AssertionError
        | Some (t, _) => Ok (push_piece b m t rights)
        end
    end.

(** *** Legal moves *)

Definition promotion_types : list piece_type := [Queen; Rook; Bishop; Knight].

Definition pawn_moves_to (src dst : nat) : list move :=
  if (square_rank dst =? 0) || (square_rank dst =? 7)
  then map (fun p => Mv src dst (Some p) None) promotion_types
  else [Mv src dst None None].

Definition pawn_pushes (b : board) (src : nat) : list move :=
  let us := turn b in
  match offset src 0 (forward us) with
  | None => []
  | Some s1 =>
      if occupied b s1 then []
      else
        pawn_moves_to src s1 ++
        (if square_rank src =? (match us with White => 1 | Black => 6 end) then
           match offset s1 0 (forward us) with
           | Some s2 => if occupied b s2 then [] else [Mv src s2 None None]
           | None => []
           end
         else [])
  end.

Definition pawn_captures (b : board) (src : nat) : list move :=
  let us := turn b in
  flat_map (fun dst =>
    if occupied_co b (opposite us) dst then pawn_moves_to src dst else [])
    (pawn_attacks us src).

Definition pawn_en_passant (b : board) (src : nat) : list move :=
  let us := turn b in
  match ep_square b with
  | Some e =>
      if mem e (pawn_attacks us src) && negb (occupied b e)
         && (square_rank src =? (match us with White => 4 | Black => 3 end))
      then [Mv src e None None] else []
  | None => []
  end.

(** The moves of the piece on [src] by the way it moves, king safety aside. *)
Definition piece_moves (b : board) (src : nat) : list move :=
  let us := turn b in
  match piece_at b src with
  | Some (t, c) =>
      if color_eqb c us then
        match t with
        | Pawn => pawn_captures b src ++ pawn_pushes b src ++ pawn_en_passant b src
        | _ =>
            flat_map (fun dst =>
              if occupied_co b us dst then [] else [Mv src dst None None])
              (attacks b src)
        end
      else []
  | None => []
  end.

Definition pseudo_legal_moves (b : board) : list move :=
  flat_map (piece_moves b) squares.

(** After the move the mover's king is not attacked. *)
Definition safe_after (b : board) (m : move) : bool :=
  match push b m with
  | Ok b' =>
      match king b' (turn b) with
      | Some k => negb (is_attacked_by b' (turn b') k)
      | None => true
      end
  | Raise _ => false
  end.

(** Castling: the rook still has the right, nothing stands between king
    and rook, and the king neither stands on, crosses nor reaches an
    attacked square. *)
Definition castling_moves (b : board) : list move :=
  let us := turn b in
  let base := home_rank us * 8 in
  let k := base + E1 in
  if is_piece b k King us then
    flat_map (fun rook =>
      if square_rank rook =? home_rank us then
        let a_side := rook <? k in
        let between := if a_side then [base + 1; base + 2; base + 3]
                       else [base + 5; base + 6] in
        let king_path := if a_side then [k; base + D1; base + C1]
                         else [k; base + F1; base + G1] in
        if forallb (fun s => negb (occupied b s)) between
           && forallb (fun s => negb (is_attacked_by b (opposite us) s)) king_path
        then [Mv k (base + (if a_side then C1 else G1)) None None]
        else []
      else [])
      (rev (clean_castling_rights b))
  else [].

(** What every generated move satisfies: two different squares of the
    board, a piece on the first, and no drop. *)
Definition well_formed (b : board) (m : move) : bool :=
  (from_square m <? 64) && (to_square m <? 64)
  && negb (from_square m =? to_square m)
  && occupied b (from_square m)
  && match drop m with None => true | Some _ => false end.

Definition plain_legal_moves (b : board) : list move :=
  filter (well_formed b) (filter (safe_after b) (pseudo_legal_moves b)).

Definition legal_castling_moves (b : board) : list move :=
  filter (well_formed b) (castling_moves b).

Definition legal_moves (b : board) : list move :=
  plain_legal_moves b ++ legal_castling_moves b.

(** [board.is_legal(move)] *)
Definition is_legal (b : board) (m : move) : bool :=
  existsb (move_eqb m) (legal_moves b).

(** *** Names of squares and pieces *)

Definition file_char (f : nat) : chr := ascii_of_nat (97 + f).
Definition rank_char (r : nat) : chr := ascii_of_nat (49 + r).

Definition file_of_char (c : chr) : option nat :=
  let n := code c in
  if (97 <=? n) && (n <=? 104) then Some (n - 97) else None.

Definition rank_of_char (c : chr) : option nat :=
  let n := code c in
  if (49 <=? n) && (n <=? 56) then Some (n - 49) else None.

(** [SQUARE_NAMES[sq]] *)
Definition square_name (sq : nat) : text :=
  [file_char (square_file sq); rank_char (square_rank sq)].

(** [SQUARE_NAMES.index(name)] *)
Definition square_index (f r : chr) : option nat :=
  match file_of_char f, rank_of_char r with
  | Some x, Some y => Some (y * 8 + x)
  | _, _ => None
  end.

(** [piece_symbol(t)] *)
Definition piece_symbol (t : piece_type) : chr :=
  match t with
  | Pawn => "p" | Knight => "n" | Bishop => "b"
  | Rook => "r" | Queen => "q" | King => "k"
  end%char.

(** [PIECE_SYMBOLS.index(c)] *)
Definition symbol_piece (c : chr) : option piece_type :=
  find (fun t => Ascii.eqb (piece_symbol t) c) [Pawn; Knight; Bishop; Rook; Queen; King].

Definition upper (c : chr) : chr :=
  let n := code c in
  if (97 <=? n) && (n <=? 122) then ascii_of_nat (n - 32) else c.

Definition lower (c : chr) : chr :=
  let n := code c in
  if (65 <=? n) && (n <=? 90) then ascii_of_nat (n + 32) else c.

(** [move.uci()] *)
Definition uci (m : move) : string :=
  match drop m with
  | Some t => str (upper (piece_symbol t) :: "@"%char :: square_name (to_square m))
  | None =>
      match promotion m with
      | Some p =>
          str (square_name (from_square m) ++ square_name (to_square m)
               ++ [piece_symbol p])
      | None =>
          if move_bool m
          then str (square_name (from_square m) ++ square_name (to_square m))
          else "0000"
      end
  end.

(** [chess.Move.from_uci(uci)] *)
Definition from_uci (u : string) : result move :=
  if String.eqb u "0000" then Ok move_null
  else
    match chars u with
    | [a; b; c; d] =>
        if Ascii.eqb b "@" then
          match symbol_piece (lower a), square_index c d with
          | Some t, Some sq => Ok (Mv sq sq None (Some t))
          | _, _ => Raise InvalidMoveError
          end
        else
          match square_index a b, square_index c d with
          | Some src, Some dst =>
              if src =? dst then Raise InvalidMoveError
              else Ok (Mv src dst None None)
          | _, _ => Raise InvalidMoveError
          end
    | [a; b; c; d; e] =>
        match square_index a b, square_index c d, symbol_piece e with
        | Some src, Some dst, Some p =>
            if src =? dst then Raise InvalidMoveError
            else Ok (Mv src dst (Some p) None)
        | _, _, _ => Raise InvalidMoveError
        end
    | _ => Raise InvalidMoveError
    end.

(** *** Rendering *)

Definition cell_char (p : option piece) : chr :=
  match p with
  | Some (t, White) => upper (piece_symbol t)
  | Some (t, Black) => piece_symbol t
  | None => "."%char
  end.

(** [str(board)]: rank 8 first, a blank between files, a newline between
    ranks. *)
Definition render_rank (b : board) (r : nat) : text :=
  flat_map (fun f =>
    cell_char (piece_at b (r * 8 + f)) :: (if f =? 7 then [] else [" "%char]))
    (seq 0 8).

Definition board_str (b : board) : string :=
  str (flat_map (fun r =>
    render_rank b r ++ (if r =? 0 then [] else [ascii_of_nat 10]))
    (rev (seq 0 8))).

(** *** SAN *)

Record san_fields : Type := San {
  san_piece : option piece_type;
  san_file : option nat;
  san_rank : option nat;
  san_to : nat;
  san_promotion : option piece_type
}.

Definition piece_letter (c : chr) : option piece_type :=
  if mem (code c) [78; 66; 75; 82; 81] then symbol_piece (lower c) else None.

Definition promotion_letter (c : chr) : option piece_type :=
  if mem (code (lower c)) [110; 98; 114; 113; 107] then symbol_piece (lower c) else None.

Definition take_opt {A : Type} (f : chr -> option A) (s : text) : option A * text :=
  match s with
  | c :: s' => match f c with Some a => (Some a, s') | None => (None, s) end
  | [] => (None, s)
  end.

Definition one_of (cs : list nat) (c : chr) : option unit :=
  if mem (code c) cs then Some tt else None.

(** The groups of
    [^([NBKRQ])?([a-h])?([1-8])?[\-x]?([a-h][1-8])(=?[nbrqkNBRQK])?[\+#]?\Z],
    read from the end of the string back to the target square and then
    from the start. *)
Definition san_syntax (s : text) : option san_fields :=
  let r := snd (take_opt (one_of [43; 35]) (rev s)) in
  let '(promo, r) := take_opt promotion_letter r in
  let r := match promo with
           | Some _ => snd (take_opt (one_of [61]) r)
           | None => r
           end in
  match r with
  | rk :: fl :: pre =>
      match square_index fl rk with
      | Some dst =>
          let '(pc, pre) := take_opt piece_letter (rev pre) in
          let '(f, pre) := take_opt file_of_char pre in
          let '(k, pre) := take_opt rank_of_char pre in
          match snd (take_opt (one_of [45; 120]) pre) with
          | [] => Some (San pc f k dst promo)
          | _ => None
          end
      | None => None
      end
  | _ => None
  end.

Definition in_strings (s : string) (l : list string) : bool :=
  existsb (String.eqb s) l.

Definition is_kingside (m : move) : bool :=
  square_file (from_square m) <? square_file (to_square m).

(** [board.find_move(from, to, promotion)] *)
Definition find_move (b : board) (src dst : nat) (promo : option piece_type)
    : result move :=
  let promo :=
    match promo, piece_at b src with
    | None, Some (Pawn, _) =>
        if (square_rank dst =? 0) || (square_rank dst =? 7) then Some Queen else None
    | _, _ => promo
    end in
  let m := from_chess960 b (Mv src dst promo None) in
  if is_legal b m then Ok m else Raise IllegalMoveError.

(** [board.parse_san(san)] *)
Definition parse_san (b : board) (san : string) : result move :=
  let us := turn b in
  if in_strings san ["O-O"; "O-O+"; "O-O#"; "0-0"; "0-0+"; "0-0#"] then
    match find is_kingside (legal_castling_moves b) with
    | Some m => Ok m
    | None => Raise IllegalMoveError
    end
  else if in_strings san ["O-O-O"; "O-O-O+"; "O-O-O#"; "0-0-0"; "0-0-0+"; "0-0-0#"] then
    match find (fun m => negb (is_kingside m)) (legal_castling_moves b) with
    | Some m => Ok m
    | None => Raise IllegalMoveError
    end
  else
    match san_syntax (chars san) with
    | None =>
        if in_strings san ["--"; "Z0"; "0000"; "@@@@"] then Ok move_null
        else Raise InvalidMoveError
    | Some f =>
        let dst := san_to f in
        let promo := san_promotion f in
        let on_file src := match san_file f with
                           | Some x => square_file src =? x | None => true end in
        let on_rank src := match san_rank f with
                           | Some y => square_rank src =? y | None => true end in
        let pick (from_mask : nat -> bool) :=
          match filter (fun m => from_mask (from_square m)
                                 && (to_square m =? dst)
                                 && negb (occupied_co b us dst)
                                 && opt_ptype_eqb (promotion m) promo)
                  (plain_legal_moves b) with
          | [] => Raise IllegalMoveError
          | [m] => Ok m
          | _ => Raise AmbiguousMoveError
          end in
        match san_piece f, san_file f, san_rank f with
        | Some t, _, _ =>
            pick (fun src => on_file src && on_rank src && is_piece b src t us)
        | None, Some x, Some y =>
            match find_move b (y * 8 + x) dst promo with
            | Ok m =>
                if opt_ptype_eqb (promotion m) promo then Ok m
                else Raise IllegalMoveError
            | Raise e => Raise e
            end
        | None, _, _ =>
            pick (fun src => on_file src && on_rank src && is_piece b src Pawn us
                             && match san_file f with
                                | Some _ => true
                                | None => square_file src =? square_file dst
                                end)
        end
    end.

#[export] Instance engine : Chess := {
  Board := board;
  Move := move;
  new_board := starting_board;
  parse_san := PyChess.parse_san;
  uci := PyChess.uci;
  from_uci := PyChess.from_uci;
  push := PyChess.push;
  board_str := PyChess.board_str;
  null_move := move_null;
  is_legal := PyChess.is_legal
}.

End PyChess.

(** [\.?] followed by something that cannot fail: the period is taken
    when it is there. *)
Definition opt_dot (s : text) : text :=
  match s with
  | c :: s' => if is_chr dot c then s' else s
  | [] => []
  end.

(** What [MOVE_NUMBER] does at the head of a text, written out. *)
Definition move_number_at (s : text) : option text :=
  match s with
  | d :: s1 =>
      if is_digit d then
        match drop_while is_digit s1 with
        | c :: s3 =>
            if is_chr dot c
            then Some (drop_while is_space (opt_dot (opt_dot s3)))
            else None
        | [] => None
        end
      else None
  | [] => None
  end.

Definition head_is_dot (s : text) : bool :=
  match s with c :: _ => is_chr dot c | [] => false end.

(** [strip_prefix p s]: [s] without its prefix [p], when it has it. *)
Fixpoint strip_prefix (p s : text) : option text :=
  match p with
  | [] => Some s
  | a :: p' =>
      match s with
      | c :: s' => if is_chr a c then strip_prefix p' s' else None
      | [] => None
      end
  end.

(** A result marker with white space around it and nothing else. *)
Definition trailing_result (cut : text) : Prop :=
  exists ws mk ws',
    cut = ws ++ chars mk ++ ws' /\ spaces ws /\ spaces ws'
    /\ In mk result_markers.

Definition no_space (t : text) : Prop :=
  forallb (fun c => negb (is_space c)) t = true.

(** The three markers, tried in the order of the pattern. *)
Definition marker_at (s : text) : option (string * text) :=
  match strip_prefix (chars "0-1") s with
  | Some s' => Some ("0-1", s')
  | None =>
      match strip_prefix (chars "1-0") s with
      | Some s' => Some ("1-0", s')
      | None =>
          match strip_prefix (chars "1/2-1/2") s with
          | Some s' => Some ("1/2-1/2", s')
          | None => None
          end
      end
  end.

(** The rest of a pattern that ends in [$]. *)
Definition end_cont : cont := fun s => if at_end s then Some s else None.

(** What [ANNOTATION] does at the head of a text, written out: an opening
    brace, then everything up to the first closing brace. *)
Definition annotation_at (s : text) : option text :=
  match s with
  | c :: s1 =>
      if is_chr lbrace c then
        match drop_while (not_chr rbrace) s1 with
        | _ :: s3 => Some s3
        | [] => None
        end
      else None
  | [] => None
  end.

(** An opening brace with a closing brace somewhere behind it. *)
Fixpoint brace_pair (s : text) : bool :=
  match s with
  | c :: s' => (is_chr lbrace c && existsb (is_chr rbrace) s') || brace_pair s'
  | [] => false
  end.

(** Two tables, one under the other. *)
Definition table_app (a t : table) : table :=
  {| uci_prefix := uci_prefix a ++ uci_prefix t;
     board_ascii := board_ascii a ++ board_ascii t |}.

(** A row of the table: the first [len] moves, 15 at least, of the move
    list of a record of the corpus. *)
Definition row_of {C : Chess} (ds : list game) (p : string) : Prop :=
  exists g v l len,
    In g ds /\ lookup "movetext" g = Some v
    /\ extract_uci_moves_from_movetext v = Ok l
    /\ 15 <= len <= length l
    /\ p = join " " (firstn len l).

(** ** The report of [main] and the inspector script *)

(** Modelled from the documentation of the [datasets] package, which the
    source imports and the repository does not contain: a [Dataset] built
    from two columns has as many rows as its columns are long, and
    [ds[i]] is the row at [i] and raises [IndexError] outside the
    table. *)
Definition num_rows (t : table) : nat := length (uci_prefix t).

Definition table_row (t : table) (i : Z) : result (string * string) :=
  p <- getitem (uci_prefix t) i ;;
  b <- getitem (board_ascii t) i ;;
  Ok (p, b).


(** [str(n)] for an [int] that is not negative. *)
Definition decimal (n : nat) : string :=
  NilEmpty.string_of_uint (Nat.to_uint n).

Definition nl : string := String (ascii_of_nat 10) EmptyString.

(** What a run printed, line by line, and the exception that ended it
    when one did. *)
Definition output : Type := (list string * option exn)%type.

(** [prep_uci_dataset.py], lines 156 to 159. *)
Fixpoint print_samples (train_split : table) (idx : list Z) : output :=
  match idx with
  | [] => ([], None)
  | i :: idx' =>
      match table_row train_split i with
      | Raise e => ([], Some e)
      | Ok row =>
          let rest := print_samples train_split idx' in
          ((nl ++ "  " ++ decimal (Z.to_nat (i + 1)) ++ ". UCI: " ++ fst row)%string
           :: "     Board:" :: snd row :: fst rest, snd rest)
      end
  end.

(** [prep_uci_dataset.py], lines 153 to 159: what [main] prints once the
    table is saved. *)
Definition main_report (prefix_dataset : table) : output :=
  let train_split := prefix_dataset in
  let rest :=
    print_samples train_split
      (py_range 0 (Z.min 10 (Z.of_nat (num_rows train_split)))) in
  ("Done!" :: (nl ++ "Sample prefixes with board states:")%string :: fst rest,
   snd rest).




(** ** Facts about the matcher *)

Section Matcher.

Ltac by_cases c := destruct c as [[|] [|] [|] [|] [|] [|] [|] [|]]; vm_compute; congruence.

Lemma digit_not_dot c : is_digit c = true -> is_chr dot c = false.
Proof. by_cases c. Qed.

Lemma space_not_digit c : is_space c = true -> is_digit c = false.
Proof. by_cases c. Qed.

Lemma newline_is_space c : (code c =? 10) = true -> is_space c = true.
Proof. by_cases c. Qed.

Lemma take_drop_while p s : take_while p s ++ drop_while p s = s.
Proof.
  induction s as [|c s IH]; simpl; auto.
  destruct (p c); simpl; congruence.
Qed.

Lemma drop_while_head p s c t : drop_while p s = c :: t -> p c = false.
Proof.
  induction s as [|a s IH]; simpl; try discriminate.
  destruct (p a) eqn:E; auto.
  intros H; injection H as -> _; exact E.
Qed.

Lemma take_while_all p s : forallb p (take_while p s) = true.
Proof.
  induction s as [|a s IH]; simpl; auto.
  destruct (p a) eqn:E; simpl; auto. now rewrite E.
Qed.

Lemma drop_while_length p s : length (drop_while p s) <= length s.
Proof.
  induction s as [|a s IH]; simpl; auto.
  destruct (p a); simpl; lia.
Qed.

(** The star takes all it can when the rest of the pattern cannot start
    with a character of the class. *)
Lemma star_cls_greedy p s k :
  (forall c t, p c = true -> k (c :: t) = None) ->
  star_cls p s k = k (drop_while p s).
Proof.
  intros Hk. induction s as [|c s IH]; simpl; auto.
  destruct (p c) eqn:E; auto.
  rewrite IH. destruct (k (drop_while p s)); auto.
Qed.

(** It also takes all it can when the rest then succeeds. *)
Lemma star_cls_first p s k x :
  k (drop_while p s) = Some x -> star_cls p s k = Some x.
Proof.
  induction s as [|c s IH]; simpl; auto.
  destruct (p c) eqn:E; auto.
  intros H. now rewrite (IH H).
Qed.

(** And it fails when the rest fails wherever the star stops. *)
Lemma star_cls_none p s k :
  (forall w, k (w ++ drop_while p s) = None) -> star_cls p s k = None.
Proof.
  induction s as [|c s IH]; simpl; intros H.
  - exact (H []).
  - destruct (p c) eqn:E.
    + rewrite IH by exact H.
      specialize (H (c :: take_while p s)). simpl in H.
      now rewrite take_drop_while in H.
    + exact (H []).
Qed.

Lemma sub_loop_fuel r f1 : forall f2 s,
  length s <= f1 -> length s <= f2 -> sub_loop r f1 s = sub_loop r f2 s.
Proof.
  induction f1 as [|f1 IH]; intros f2 s H1 H2.
  - destruct s; simpl in *; [destruct f2; reflexivity | lia].
  - destruct f2 as [|f2]; [destruct s; simpl in *; [reflexivity | lia]|].
    destruct s as [|c s]; simpl; auto.
    destruct (match_at r (c :: s)) as [rest|].
    + destruct (length rest <? S (length s)) eqn:E.
      * apply Nat.ltb_lt in E. simpl in H1, H2. apply IH; lia.
      * f_equal. simpl in H1, H2. apply IH; lia.
    + f_equal. simpl in H1, H2. apply IH; lia.
Qed.

(** One step of the scan. *)
Lemma re_sub_cons r c s :
  re_sub r (c :: s) =
  match match_at r (c :: s) with
  | Some rest =>
      if length rest <? S (length s) then re_sub r rest else c :: re_sub r s
  | None => c :: re_sub r s
  end.
Proof.
  unfold re_sub. simpl.
  destruct (match_at r (c :: s)) as [rest|]; auto.
  destruct (length rest <? S (length s)) eqn:E; auto.
  apply Nat.ltb_lt in E. apply sub_loop_fuel; lia.
Qed.

Lemma match_at_move_number s : match_at MOVE_NUMBER s = move_number_at s.
Proof.
  unfold match_at, MOVE_NUMBER, Plus, Opt, Chr, move_number_at. simpl.
  destruct s as [|d s1]; auto.
  destruct (is_digit d) eqn:Ed; auto.
  rewrite star_cls_greedy.
  2:{ intros c t Hc. now rewrite (digit_not_dot c Hc). }
  destruct (drop_while is_digit s1) as [|c s3]; auto.
  destruct (is_chr dot c); auto.
  assert (Hsp : forall t, star_cls is_space t (fun rest => Some rest)
                          = Some (drop_while is_space t)).
  { intros t. now apply star_cls_first. }
  assert (H1 : forall t,
    match match t with
          | [] => None
          | c0 :: s' => if is_chr dot c0
                        then star_cls is_space s' (fun rest => Some rest) else None
          end with
    | Some rest => Some rest
    | None => star_cls is_space t (fun rest => Some rest)
    end = Some (drop_while is_space (opt_dot t))).
  { intros [|c0 t]; [reflexivity|]. cbn [opt_dot].
    destruct (is_chr dot c0); [now rewrite Hsp | apply Hsp]. }
  rewrite H1.
  destruct s3 as [|c1 s4]; simpl; auto.
  destruct (is_chr dot c1) eqn:E1.
  - now rewrite H1.
  - cbn [opt_dot]. now rewrite E1.
Qed.

Lemma move_number_at_shorter s rest :
  move_number_at s = Some rest -> length rest < length s.
Proof.
  destruct s as [|d s1]; simpl; try discriminate.
  destruct (is_digit d); try discriminate.
  pose proof (drop_while_length is_digit s1) as H1.
  destruct (drop_while is_digit s1) as [|c s3]; try discriminate.
  destruct (is_chr dot c); try discriminate.
  intros H; injection H as <-.
  pose proof (drop_while_length is_space (opt_dot (opt_dot s3))) as H2.
  assert (Ho : forall t, length (opt_dot t) <= length t).
  { intros [|x t]; simpl; auto. destruct (is_chr dot x); simpl; lia. }
  pose proof (Ho s3). pose proof (Ho (opt_dot s3)). simpl in H1. lia.
Qed.

(** A digit that starts no move number is copied, and so is the
    character behind the digits. *)
Lemma head_after_digits s :
  head_is_dot (drop_while is_digit s) = false ->
  head_is_dot (strip_move_numbers s) = false.
Proof.
  unfold strip_move_numbers. intros H.
  destruct s as [|c s]; auto.
  rewrite re_sub_cons, match_at_move_number. simpl in *.
  destruct (is_digit c) eqn:Ec.
  - destruct (drop_while is_digit s) as [|x t] eqn:Ed.
    + simpl. now apply digit_not_dot.
    + simpl in H. rewrite H. simpl. now apply digit_not_dot.
  - simpl. exact H.
Qed.

Lemma numdot_cons d s :
  numdot (d :: s) = (is_digit d && head_is_dot s) || numdot s.
Proof. destruct s; simpl; auto. now rewrite andb_false_r. Qed.

(** After the second substitution no digit has a period behind it. *)
Lemma numdot_strip_move_numbers s : numdot (strip_move_numbers s) = false.
Proof.
  unfold strip_move_numbers.
  remember (length s) as n eqn:Hn.
  assert (Hle : length s <= n) by lia. clear Hn.
  revert s Hle. induction n as [|n IH]; intros s Hle.
  - destruct s; simpl in Hle; [reflexivity | lia].
  - destruct s as [|c s]; [reflexivity|].
    rewrite re_sub_cons, match_at_move_number.
    destruct (move_number_at (c :: s)) as [rest|] eqn:Em.
    + pose proof (move_number_at_shorter _ Em) as Hl. simpl in Hl, Hle.
      assert (E : (length rest <? S (length s)) = true) by (apply Nat.ltb_lt; lia).
      rewrite E. apply IH. lia.
    + rewrite numdot_cons. simpl in Hle. rewrite IH by lia.
      rewrite orb_false_r.
      destruct (is_digit c) eqn:Ec; auto. simpl.
      apply (head_after_digits s).
      simpl in Em. rewrite Ec in Em.
      destruct (drop_while is_digit s) as [|x t]; auto. simpl.
      destruct (is_chr dot x); [discriminate | reflexivity].
Qed.

Lemma numdot_app_l a b : numdot (a ++ b) = false -> numdot a = false.
Proof.
  induction a as [|x a IH]; auto.
  simpl app. rewrite !numdot_cons. intros H.
  apply orb_false_iff in H as [H1 H2].
  rewrite (IH H2), orb_false_r.
  destruct a; simpl in *; auto. now rewrite andb_false_r.
Qed.

Lemma numdot_app_r a b : numdot (a ++ b) = false -> numdot b = false.
Proof.
  induction a as [|x a IH]; auto.
  simpl app. rewrite numdot_cons. intros H.
  apply orb_false_iff in H as [_ H2]. auto.
Qed.

Lemma zero_not_one c : is_chr "0"%char c = true -> is_chr "1"%char c = false.
Proof. by_cases c. Qed.

Lemma zero_not_space c : is_chr "0"%char c = true -> is_space c = false.
Proof. by_cases c. Qed.

Lemma one_not_space c : is_chr "1"%char c = true -> is_space c = false.
Proof. by_cases c. Qed.

Lemma dash_not_slash c : is_chr "-"%char c = true -> is_chr "/"%char c = false.
Proof. by_cases c. Qed.

Lemma is_chr_eq a c : is_chr a c = true -> c = a.
Proof. unfold is_chr. intros H. apply Ascii.eqb_eq in H. congruence. Qed.

Lemma rmatch_lit p : forall s k,
  rmatch (Lit p) s k =
  match strip_prefix p s with Some s' => k s' | None => None end.
Proof.
  induction p as [|a p IH]; intros s k; [reflexivity|].
  simpl. destruct s as [|c s]; auto.
  destruct (is_chr a c); auto.
Qed.

Lemma strip_prefix_app p : forall s s', strip_prefix p s = Some s' -> s = p ++ s'.
Proof.
  induction p as [|a p IH]; intros s s' H; simpl in *.
  - congruence.
  - destruct s as [|c s]; try discriminate.
    destruct (is_chr a c) eqn:E; try discriminate.
    apply is_chr_eq in E. subst c. f_equal. auto.
Qed.

Lemma strip_prefix_refl p s : strip_prefix p (p ++ s) = Some s.
Proof.
  induction p as [|a p IH]; simpl; auto.
  unfold is_chr at 1. now rewrite Ascii.eqb_refl.
Qed.

(** No two alternatives start alike, so backtracking into the group finds
    nothing new. *)
Lemma rmatch_marker s k :
  rmatch MARKER s k =
  match marker_at s with Some (_, s') => k s' | None => None end.
Proof.
  unfold MARKER, marker_at. cbn [rmatch]. rewrite !rmatch_lit.
  destruct (strip_prefix (chars "0-1") s) as [s1|] eqn:E1.
  - destruct (k s1); auto.
    destruct s as [|c s]; [discriminate|]. simpl in E1 |- *.
    destruct (is_chr "0"%char c) eqn:E0; [|discriminate].
    now rewrite (zero_not_one c E0).
  - destruct (strip_prefix (chars "1-0") s) as [s2|] eqn:E2;
      [|now destruct (strip_prefix (chars "1/2-1/2") s)].
    destruct (k s2); auto.
    destruct s as [|c [|c' s]]; try discriminate; simpl in E2 |- *;
      destruct (is_chr "1"%char c); try discriminate.
    destruct (is_chr "-"%char c') eqn:E'; [|discriminate].
    now rewrite (dash_not_slash c' E').
Qed.

Lemma marker_at_spec s mk s' :
  marker_at s = Some (mk, s') -> s = chars mk ++ s' /\ In mk result_markers.
Proof.
  unfold marker_at, result_markers.
  destruct (strip_prefix (chars "0-1") s) eqn:E1;
    [|destruct (strip_prefix (chars "1-0") s) eqn:E2;
      [|destruct (strip_prefix (chars "1/2-1/2") s) eqn:E3]];
    intros H; inversion H; subst; split;
    try (now apply strip_prefix_app); simpl; auto.
Qed.

Lemma marker_at_head c s : is_space c = true -> marker_at (c :: s) = None.
Proof.
  intros Hc. unfold marker_at. simpl.
  destruct (is_chr "0"%char c) eqn:E0.
  { apply zero_not_space in E0. congruence. }
  destruct (is_chr "1"%char c) eqn:E1; auto.
  apply one_not_space in E1. congruence.
Qed.

Lemma marker_at_refl mk s :
  In mk result_markers -> exists mk', marker_at (chars mk ++ s) = Some (mk', s).
Proof.
  unfold result_markers. simpl.
  intros [<-|[<-|[<-|[]]]]; unfold marker_at.
  - rewrite strip_prefix_refl. eauto.
  - change (strip_prefix (chars "0-1") (chars "1-0" ++ s)) with (@None text).
    rewrite strip_prefix_refl. eauto.
  - change (strip_prefix (chars "0-1") (chars "1/2-1/2" ++ s)) with (@None text).
    change (strip_prefix (chars "1-0") (chars "1/2-1/2" ++ s)) with (@None text).
    rewrite strip_prefix_refl. eauto.
Qed.

Lemma drop_while_spaces s : spaces s -> drop_while is_space s = [].
Proof.
  unfold spaces. induction s as [|c s IH]; simpl; auto.
  intros H. apply andb_true_iff in H as [-> H]. auto.
Qed.

Lemma drop_while_nil_spaces s : drop_while is_space s = [] -> spaces s.
Proof.
  unfold spaces. induction s as [|c s IH]; simpl; auto.
  destruct (is_space c); [auto | discriminate].
Qed.

(** [\s*$] ends a match only where nothing but white space is left, and
    then takes all of it. *)
Lemma spaces_to_end s :
  star_cls is_space s end_cont = if forallb is_space s then Some [] else None.
Proof.
  destruct (forallb is_space s) eqn:E.
  - apply star_cls_first. now rewrite drop_while_spaces.
  - apply star_cls_none. intros w.
    destruct (drop_while is_space s) as [|x d] eqn:Ed.
    + apply drop_while_nil_spaces in Ed. unfold spaces in Ed. congruence.
    + apply drop_while_head in Ed. unfold end_cont.
      destruct w as [|a [|a' w]]; simpl.
      * destruct d; auto. destruct (code x =? 10) eqn:E10; auto.
        apply newline_is_space in E10. congruence.
      * reflexivity.
      * reflexivity.
Qed.

Lemma drop_while_app_spaces ws s :
  spaces ws -> drop_while is_space (ws ++ s) = drop_while is_space s.
Proof.
  unfold spaces. induction ws as [|c ws IH]; simpl; auto.
  intros H. apply andb_true_iff in H as [-> H]. auto.
Qed.

(** What [RESULT] does at the head of a text, written out. *)
Lemma match_at_result s :
  match_at RESULT s =
  match marker_at (drop_while is_space s) with
  | Some (_, s2) => if forallb is_space s2 then Some [] else None
  | None => None
  end.
Proof.
  unfold match_at, RESULT. cbn [rmatch].
  rewrite star_cls_greedy.
  - rewrite rmatch_marker.
    destruct (marker_at (drop_while is_space s)) as [[mk s2]|]; auto.
    apply spaces_to_end.
  - intros c t Hc. rewrite rmatch_marker. now rewrite marker_at_head.
Qed.

Lemma match_at_result_some s rest :
  match_at RESULT s = Some rest -> rest = [] /\ trailing_result s.
Proof.
  rewrite match_at_result.
  destruct (marker_at (drop_while is_space s)) as [[mk s2]|] eqn:Em; try discriminate.
  destruct (forallb is_space s2) eqn:E2; try discriminate.
  intros H; injection H as <-. split; auto.
  apply marker_at_spec in Em as [Hs Hin].
  exists (take_while is_space s), mk, s2. repeat split; auto.
  - rewrite <- Hs. symmetry. apply take_drop_while.
  - apply take_while_all.
Qed.

Lemma drop_while_marker mk s :
  In mk result_markers ->
  drop_while is_space (chars mk ++ s) = chars mk ++ s.
Proof.
  unfold result_markers. simpl. intros [<-|[<-|[<-|[]]]]; reflexivity.
Qed.

Lemma match_at_result_trailing s :
  trailing_result s -> match_at RESULT s = Some [].
Proof.
  intros (ws & mk & ws' & -> & Hws & Hws' & Hin).
  rewrite match_at_result, drop_while_app_spaces, drop_while_marker by auto.
  destruct (marker_at_refl ws' Hin) as [mk' ->].
  unfold spaces in Hws'. now rewrite Hws'.
Qed.

Lemma trailing_result_length s : trailing_result s -> s <> [].
Proof.
  intros (ws & mk & ws' & -> & _ & _ & Hin) H.
  apply app_eq_nil in H as [_ H]. apply app_eq_nil in H as [H _].
  unfold result_markers in Hin. simpl in Hin.
  destruct Hin as [<-|[<-|[<-|[]]]]; discriminate.
Qed.

(** The third substitution keeps a prefix; what it cuts is one marker
    with the white space around it. *)
Lemma strip_result_cut t :
  exists cut, t = strip_result t ++ cut /\ (cut = [] \/ trailing_result cut).
Proof.
  unfold strip_result. induction t as [|c t IH].
  - exists []. auto.
  - rewrite re_sub_cons.
    destruct (match_at RESULT (c :: t)) as [rest|] eqn:Em.
    + apply match_at_result_some in Em as [-> Ht]. simpl.
      exists (c :: t). auto.
    + destruct IH as (cut & IH1 & IH2). exists cut. split; auto.
      simpl. now f_equal.
Qed.

(** Where the text ends in a marker, a marker is cut. *)
Lemma strip_result_trailing pre cut :
  trailing_result cut ->
  exists cut', pre ++ cut = strip_result (pre ++ cut) ++ cut'
               /\ trailing_result cut'.
Proof.
  intros Hcut. unfold strip_result. induction pre as [|c pre IH].
  - simpl. destruct cut as [|c t] eqn:Ec.
    + now apply trailing_result_length in Hcut.
    + rewrite re_sub_cons, (match_at_result_trailing Hcut). simpl.
      exists (c :: t). auto.
  - simpl app. rewrite re_sub_cons.
    destruct (match_at RESULT (c :: pre ++ cut)) as [rest|] eqn:Em.
    + apply match_at_result_some in Em as [-> Ht]. simpl.
      exists (c :: pre ++ cut). auto.
    + destruct IH as (cut' & IH1 & IH2). exists cut'. split; auto.
      simpl. now f_equal.
Qed.

(** *** Splitting *)

Lemma split_ws_infix s : forall cur t,
  In t (split_ws cur s) -> exists a b, rev cur ++ s = a ++ t ++ b.
Proof.
  induction s as [|c s IH]; intros cur t H; simpl in H.
  - destruct cur; simpl in H; [contradiction|].
    destruct H as [<-|[]]. exists [], []. simpl. now rewrite !app_nil_r.
  - destruct (is_space c).
    + destruct cur as [|x cur].
      * apply IH in H as (a & b & E). simpl in E. exists (c :: a), b.
        simpl. now f_equal.
      * destruct H as [<-|H].
        { exists [], (c :: s). reflexivity. }
        apply IH in H as (a & b & E). simpl in E.
        exists (rev (x :: cur) ++ c :: a), b. rewrite <- app_assoc. simpl.
        now rewrite E.
    + apply IH in H as (a & b & E). exists a, b. rewrite <- E. simpl.
      now rewrite <- app_assoc.
Qed.

Lemma no_space_rev t : no_space t -> no_space (rev t).
Proof.
  unfold no_space. rewrite !forallb_forall. intros H c Hc.
  apply H. now apply in_rev.
Qed.

Lemma split_ws_tokens s : forall cur t,
  no_space cur -> In t (split_ws cur s) -> t <> [] /\ no_space t.
Proof.
  induction s as [|c s IH]; intros cur t Hcur H; simpl in H.
  - destruct cur as [|x cur]; simpl in H; [contradiction|].
    destruct H as [<-|[]]. split; [|exact (no_space_rev Hcur)].
    intros E. now apply app_eq_nil in E as [_ E].
  - destruct (is_space c) eqn:Ec.
    + destruct cur as [|x cur].
      * now apply IH in H.
      * destruct H as [<-|H].
        { split; [|exact (no_space_rev Hcur)].
          simpl. intros E. now apply app_eq_nil in E as [_ E]. }
        now apply IH in H.
    + apply IH in H; auto. unfold no_space in *. simpl. now rewrite Ec.
Qed.

Lemma lstrip_no_space t : no_space t -> lstrip t = t.
Proof.
  unfold no_space. destruct t as [|c t]; simpl; auto.
  intros H. apply andb_true_iff in H as [H _].
  now destruct (is_space c).
Qed.

Lemma py_strip_no_space t : no_space t -> py_strip t = t.
Proof.
  intros H. unfold py_strip.
  rewrite (lstrip_no_space H), (lstrip_no_space (no_space_rev H)).
  apply rev_involutive.
Qed.

(** The comprehension over the split changes nothing: a token of
    [split()] has no white space in it and is not empty. *)
Lemma move_tokens_of_split s : move_tokens_of s = py_split s.
Proof.
  unfold move_tokens_of, py_split.
  assert (H : forall t, In t (split_ws [] s) -> t <> [] /\ no_space t).
  { intros t. now apply split_ws_tokens. }
  induction (split_ws [] s) as [|t l IH]; auto.
  destruct (H t (or_introl eq_refl)) as [Hne Hns].
  simpl. rewrite (py_strip_no_space Hns).
  destruct t as [|c t]; [congruence|]. simpl.
  rewrite (py_strip_no_space Hns). f_equal.
  apply IH. intros t' Ht'. apply H. now right.
Qed.

Lemma chars_str t : chars (str t) = t.
Proof. apply list_ascii_of_string_of_list_ascii. Qed.

Lemma numdot_digits t : forall d,
  is_digit d = true -> numdot (d :: t) = false ->
  head_is_dot (drop_while is_digit t) = false.
Proof.
  induction t as [|x t IH]; intros d Hd H; auto.
  rewrite numdot_cons in H. apply orb_false_iff in H as [H1 H2].
  rewrite Hd in H1. simpl in H1 |- *.
  destruct (is_digit x) eqn:Ex; [now apply (IH x) | exact H1].
Qed.

(** A text in which no digit has a period behind it is no move number. *)
Lemma numdot_no_move_number t :
  numdot t = false -> full_match NUMBER_MARK t = false.
Proof.
  intros H. unfold full_match, NUMBER_MARK, Plus. cbn [rmatch].
  destruct t as [|d t]; auto.
  destruct (is_digit d) eqn:Ed; auto.
  rewrite star_cls_greedy.
  2:{ intros c u Hc. now rewrite (digit_not_dot c Hc). }
  pose proof (@numdot_digits t d Ed H) as Hh.
  destruct (drop_while is_digit t) as [|c u]; auto.
  simpl in Hh. now rewrite Hh.
Qed.

(** Every token of the normaliser is free of digit-period pairs. *)
Lemma normalize_numdot s tok :
  In tok (normalize s) -> numdot (chars tok) = false.
Proof.
  unfold normalize. rewrite move_tokens_of_split. intros H.
  apply in_map_iff in H as (t & <- & Ht). rewrite chars_str.
  apply split_ws_infix in Ht as (a & b & E). simpl in E.
  unfold clean in E.
  set (x := strip_move_numbers (strip_annotations (chars s))) in *.
  destruct (strip_result_cut x) as (cut & Hx & _).
  pose proof (numdot_strip_move_numbers (strip_annotations (chars s))) as Hn.
  fold x in Hn. rewrite Hx, E in Hn.
  apply numdot_app_l in Hn. apply numdot_app_r in Hn.
  now apply numdot_app_l in Hn.
Qed.

End Matcher.

(** ** Facts about the program *)

Section ProgramFacts.

Context {C : Chess}.

(** *** The translator *)

(** A token that [parse_san] rejects ends the loop. *)
Lemma san_loop_stops b pre ms b' tok post e : forall acc,
  accepted b pre ms b' ->
  parse_san b' tok = Raise e ->
  san_loop b acc (pre ++ tok :: post) =
  if is_move_error e then Ok (acc ++ map uci ms) else Raise e.
Proof.
  intros acc H He. revert acc.
  induction H as [b|b tok' toks m b1 ms b' Hp Hq _ IH]; intros acc; simpl.
  - rewrite He, app_nil_r. reflexivity.
  - rewrite Hp, Hq, IH, <- app_assoc by assumption. reflexivity.
Qed.

(** When [push] raises, the identifier is in the list already. *)
Lemma san_loop_push_raises b pre ms b' tok post m e : forall acc,
  accepted b pre ms b' ->
  parse_san b' tok = Ok m ->
  push b' m = Raise e ->
  san_loop b acc (pre ++ tok :: post) =
  if is_move_error e then Ok (acc ++ map uci ms ++ [uci m]) else Raise e.
Proof.
  intros acc H Hm He. revert acc.
  induction H as [b|b tok' toks m' b1 ms b' Hp Hq _ IH]; intros acc; simpl.
  - rewrite Hm, He. reflexivity.
  - rewrite Hp, Hq, IH, <- app_assoc by assumption. reflexivity.
Qed.

Lemma accepted_firstn b toks ms b' :
  accepted b toks ms b' ->
  forall i, exists bi, accepted b (firstn i toks) (firstn i ms) bi.
Proof.
  induction 1 as [b|b tok toks m b1 ms b' Hp Hq _ IH]; intros i.
  - exists b. rewrite !firstn_nil. constructor.
  - destruct i as [|i]; simpl.
    + exists b. constructor.
    + destruct (IH i) as [bi Hi]. exists bi. econstructor; eauto.
Qed.

(** *** The renderer *)

Lemma replay_board_loop l : forall b b',
  replay b l = Ok b' -> board_loop b l = Ok (board_str b').
Proof.
  induction l as [|u l IH]; intros b b' H; simpl in *.
  - congruence.
  - destruct (from_uci u) as [m|e]; simpl in *; [|discriminate].
    destruct (push b m) as [b1|e]; simpl in *; [|discriminate].
    auto.
Qed.

(** The first identifier that does not go through decides: a move error
    gives the initial position, another exception goes to the caller. *)
Lemma board_loop_fallback pre : forall b b1 u post e,
  replay b pre = Ok b1 ->
  (m <- from_uci u ;; push b1 m) = Raise e ->
  board_loop b (pre ++ u :: post) =
  if is_move_error e then Ok (board_str new_board) else Raise e.
Proof.
  induction pre as [|x pre IH]; intros b b1 u post e H He; simpl in *.
  - injection H as ->. now rewrite He.
  - destruct (from_uci x) as [m|e']; simpl in *; [|discriminate].
    destruct (push b m) as [b2|e']; simpl in *; [|discriminate].
    eauto.
Qed.

(** A list replays to the end, or has a first identifier that does not. *)
Lemma replay_cases l : forall b,
  (exists b', replay b l = Ok b')
  \/ (exists pre u post b1 e,
        l = pre ++ u :: post /\ replay b pre = Ok b1
        /\ (m <- from_uci u ;; push b1 m) = Raise e).
Proof.
  induction l as [|u l IH]; intros b; simpl.
  - left. eauto.
  - destruct (from_uci u) as [m|e] eqn:Eu; simpl.
    + destruct (push b m) as [b1|e] eqn:Ep; simpl.
      * destruct (IH b1) as [[b' H]|(pre & x & post & b2 & e & -> & H1 & H2)].
        { left. eauto. }
        right. exists (u :: pre), x, post, b2, e. simpl.
        rewrite Eu. simpl. rewrite Ep. simpl. auto.
      * right. exists [], u, l, b, e. simpl. rewrite Eu. simpl. auto.
    + right. exists [], u, l, b, e. simpl. rewrite Eu. auto.
Qed.

(** *** Ranges and slices *)

Lemma py_range_length lo hi : length (py_range lo hi) = Z.to_nat (hi - lo).
Proof. unfold py_range. now rewrite length_map, length_seq. Qed.

Lemma py_range_nth lo hi k :
  k < Z.to_nat (hi - lo) ->
  nth_error (py_range lo hi) k = Some (lo + Z.of_nat k)%Z.
Proof.
  intros H. unfold py_range. rewrite nth_error_map.
  rewrite nth_error_seq.
  destruct (Nat.ltb_spec k (Z.to_nat (hi - lo))); [reflexivity | lia].
Qed.

Lemma py_range_in lo hi i : In i (py_range lo hi) -> (lo <= i < hi)%Z.
Proof.
  unfold py_range. intros H. apply in_map_iff in H as (k & <- & Hk).
  apply in_seq in Hk. lia.
Qed.

Lemma py_range_empty lo hi : (hi <= lo)%Z -> py_range lo hi = [].
Proof.
  intros H. unfold py_range. replace (Z.to_nat (hi - lo)) with 0 by lia.
  reflexivity.
Qed.

Lemma py_range_cons lo hi :
  (lo < hi)%Z -> py_range lo hi = lo :: py_range (lo + 1) hi.
Proof.
  intros H. unfold py_range.
  replace (Z.to_nat (hi - lo)) with (S (Z.to_nat (hi - (lo + 1)))) by lia.
  simpl. f_equal; [lia|].
  rewrite <- seq_shift, map_map. apply map_ext. intros k. lia.
Qed.

Lemma slice_to_firstn {A : Type} (l : list A) (i : Z) :
  (0 <= i)%Z -> slice_to l i = firstn (Z.to_nat i) l.
Proof.
  intros H. unfold slice_to.
  destruct (Z.ltb_spec i 0); [lia | reflexivity].
Qed.

(** *** The prefix generator *)

Lemma prefix_loop_ok l idx : forall ps bs,
  (forall i, In i idx -> exists s, get_board_ascii (slice_to l i) = Ok s) ->
  prefix_loop l idx ps bs =
  Ok (ps ++ map (fun i => join " " (slice_to l i)) idx,
      bs ++ map (board_after l) idx).
Proof.
  induction idx as [|i idx IH]; intros ps bs H; simpl.
  - now rewrite !app_nil_r.
  - destruct (H i (or_introl eq_refl)) as [s Hs].
    unfold board_after at 1. rewrite Hs. simpl.
    rewrite IH by (intros j Hj; apply H; now right).
    rewrite <- !app_assoc. reflexivity.
Qed.


(** *** The corpus driver *)

Lemma getitem_nth {A : Type} (l : list A) (i : nat) (a : A) :
  nth_error l i = Some a -> getitem l (Z.of_nat i) = Ok a.
Proof.
  intros H. unfold getitem.
  destruct (Z.ltb_spec (Z.of_nat i) 0); [lia|].
  destruct (Z.ltb_spec (Z.of_nat i) 0); [lia|].
  now rewrite Nat2Z.id, H.
Qed.

Lemma games_loop_run ds : forall pre acc k,
  k <= length ds ->
  games_loop (pre ++ ds)
    (py_range (Z.of_nat (length pre)) (Z.of_nat (length pre + k))) acc
  = run_games (firstn k ds) acc.
Proof.
  induction ds as [|g ds IH]; intros pre acc k Hk; simpl in Hk.
  - replace k with 0 by lia. rewrite Nat.add_0_r, py_range_empty by lia.
    reflexivity.
  - destruct k as [|k].
    + rewrite Nat.add_0_r, py_range_empty by lia. reflexivity.
    + rewrite py_range_cons by lia. simpl.
      rewrite (getitem_nth (pre ++ g :: ds) (length pre) (a:=g)).
      2:{ rewrite nth_error_app2, Nat.sub_diag by lia. reflexivity. }
      simpl. destruct (process_game acc g) as [acc'|e]; simpl; auto.
      specialize (IH (pre ++ [g]) acc' k).
      rewrite <- app_assoc, length_app in IH. simpl in IH.
      replace (Z.of_nat (length pre) + 1)%Z with (Z.of_nat (length pre + 1)) by lia.
      replace (length pre + S k) with (length pre + 1 + k) by lia.
      apply IH. lia.
Qed.

Lemma games_loop_firstn ds acc k :
  k <= length ds ->
  games_loop ds (py_range 0 (Z.of_nat k)) acc = run_games (firstn k ds) acc.
Proof. intros H. exact (games_loop_run ds [] acc H). Qed.

Lemma run_games_app ds1 : forall ds2 acc,
  run_games (ds1 ++ ds2) acc = acc' <- run_games ds1 acc ;; run_games ds2 acc'.
Proof.
  induction ds1 as [|g ds1 IH]; intros ds2 acc; simpl; auto.
  destruct (process_game acc g); simpl; auto.
Qed.

Lemma process_dataset_none ds :
  process_dataset ds None = run_games ds empty_table.
Proof.
  unfold process_dataset. rewrite games_loop_firstn by lia.
  now rewrite firstn_all.
Qed.

Lemma process_dataset_cap ds m :
  m <> 0%Z ->
  process_dataset ds (Some m) =
  run_games (firstn (Z.to_nat (Z.min (Z.of_nat (length ds)) m)) ds) empty_table.
Proof.
  intros Hm. unfold process_dataset.
  destruct (Z.eqb_spec m 0); [contradiction|]. simpl.
  set (c := Z.min (Z.of_nat (length ds)) m).
  destruct (Z.le_gt_cases c 0) as [Hc|Hc].
  - rewrite py_range_empty by lia. replace (Z.to_nat c) with 0 by lia.
    reflexivity.
  - rewrite <- (Z2Nat.id c) at 1 by lia. apply games_loop_firstn. lia.
Qed.



End ProgramFacts.

(** *** With a chess package that keeps its promises *)

Section LawfulFacts.

Context {C : Chess} {L : ChessLaws C}.

(** The loop takes the longest run of tokens that [parse_san] accepts. *)
Lemma san_loop_longest toks : forall b acc,
  exists k ms b',
    k <= length toks
    /\ accepted b (firstn k toks) ms b'
    /\ (k = length toks
        \/ exists tok e, nth_error toks k = Some tok /\ parse_san b' tok = Raise e)
    /\ san_loop b acc toks = Ok (acc ++ map uci ms).
Proof.
  induction toks as [|tok toks IH]; intros b acc.
  - exists 0, [], b. simpl. rewrite app_nil_r.
    repeat split; auto. constructor.
  - simpl. destruct (parse_san b tok) as [m|e] eqn:Ep.
    + destruct (push_defined (parse_san_sound Ep)) as [b1 Hq].
      rewrite Hq.
      destruct (IH b1 (acc ++ [uci m])) as (k & ms & b' & Hk & Ha & Hs & Hl).
      exists (S k), (m :: ms), b'. simpl. repeat split.
      * lia.
      * econstructor; eauto.
      * destruct Hs as [->|Hs]; auto.
      * rewrite Hl, <- app_assoc. reflexivity.
    + rewrite (parse_san_raises Ep).
      exists 0, [], b. simpl. rewrite app_nil_r. repeat split.
      * lia.
      * constructor.
      * right. eauto.
Qed.

Lemma accepted_replay b toks ms b' :
  accepted b toks ms b' -> replay b (map uci ms) = Ok b'.
Proof.
  induction 1 as [b|b tok toks m b1 ms b' Hp Hq _ IH]; simpl; auto.
  rewrite (from_uci_uci (parse_san_sound Hp)). simpl.
  rewrite Hq. simpl. exact IH.
Qed.

Lemma accepted_playable b toks ms b' :
  accepted b toks ms b' ->
  forall i u, nth_error (map uci ms) i = Some u ->
    exists bi mi, replay b (firstn i (map uci ms)) = Ok bi
                  /\ from_uci u = Ok mi /\ legal_or_null bi mi.
Proof.
  induction 1 as [b|b tok toks m b1 ms b' Hp Hq _ IH]; intros i u Hu.
  - destruct i; discriminate.
  - pose proof (parse_san_sound Hp) as Hl.
    destruct i as [|i]; simpl in *.
    + injection Hu as <-. exists b, m. repeat split; auto.
      exact (from_uci_uci Hl).
    + rewrite (from_uci_uci Hl). simpl. rewrite Hq. simpl. now apply IH.
Qed.

Lemma canonical_firstn l i :
  canonical l -> exists b, replay new_board (firstn i l) = Ok b.
Proof.
  intros (toks & ms & b & Ha & ->).
  destruct (accepted_firstn Ha i) as [bi Hi].
  exists bi. rewrite firstn_map. now apply (accepted_replay Hi).
Qed.


(** What the translator returns is canonical. *)
Lemma extract_canonical v l :
  extract_uci_moves_from_movetext v = Ok l -> canonical l.
Proof.
  unfold extract_uci_moves_from_movetext, extract_body.
  assert (Hnil : canonical []).
  { exists [], [], new_board. split; [constructor | reflexivity]. }
  destruct v as [|s|z]; try (intros H; injection H as <-; exact Hnil).
  destruct (san_loop_longest (normalize s) new_board [])
    as (k & ms & b' & _ & Ha & _ & ->).
  intros H; injection H as <-. simpl. now exists (firstn k (normalize s)), ms, b'.
Qed.

Lemma canonical_board_ascii l i :
  canonical l -> (0 <= i)%Z ->
  exists b, replay new_board (firstn (Z.to_nat i) l) = Ok b
            /\ get_board_ascii (slice_to l i) = Ok (board_str b).
Proof.
  intros Hc Hi. destruct (canonical_firstn (Z.to_nat i) Hc) as [b Hb].
  exists b. split; auto. rewrite slice_to_firstn by assumption.
  now apply replay_board_loop.
Qed.

(** On a canonical list the generator returns, with one row for each
    length of the range. *)
Lemma generate_canonical l t :
  canonical l ->
  generate_move_prefixes l t =
  Ok (map (fun i => join " " (firstn (Z.to_nat i) l))
        (py_range (Z.max 1 t) (Z.of_nat (length l) + 1)),
      map (board_after l) (py_range (Z.max 1 t) (Z.of_nat (length l) + 1))).
Proof.
  intros Hc. unfold generate_move_prefixes.
  rewrite prefix_loop_ok.
  - simpl. f_equal. f_equal. apply map_ext_in. intros i Hi.
    apply py_range_in in Hi. rewrite slice_to_firstn by lia. reflexivity.
  - intros i Hi. apply py_range_in in Hi.
    destruct (@canonical_board_ascii l i Hc) as (b & _ & Hb); [lia|]. eauto.
Qed.

End LawfulFacts.

(** ** The model of the chess package keeps the documented promises *)

Module PyChessFacts.

Import PyChess.

Lemma ptype_eqb_eq a b : ptype_eqb a b = true -> a = b.
Proof. destruct a, b; simpl; congruence. Qed.

Lemma opt_ptype_eqb_eq a b : opt_ptype_eqb a b = true -> a = b.
Proof.
  destruct a, b; simpl; try congruence.
  intros H. now rewrite (ptype_eqb_eq _ _ H).
Qed.

Lemma move_eqb_eq a b : move_eqb a b = true -> a = b.
Proof.
  destruct a, b. unfold move_eqb. simpl. intros H.
  repeat (apply andb_true_iff in H as [H ?]).
  apply Nat.eqb_eq in H. subst.
  repeat match goal with
         | H : (_ =? _) = true |- _ => apply Nat.eqb_eq in H
         | H : opt_ptype_eqb _ _ = true |- _ => apply opt_ptype_eqb_eq in H
         end.
  congruence.
Qed.

Lemma move_eqb_refl a : move_eqb a a = true.
Proof.
  destruct a as [f t p d]. unfold move_eqb. simpl.
  rewrite !Nat.eqb_refl. now destruct p as [[]|], d as [[]|].
Qed.

Lemma is_legal_in b m : In m (legal_moves b) -> is_legal b m = true.
Proof.
  intros H. unfold is_legal. apply existsb_exists.
  exists m. split; auto. apply move_eqb_refl.
Qed.

Lemma is_legal_well_formed b m : is_legal b m = true -> well_formed b m = true.
Proof.
  unfold is_legal. intros H. apply existsb_exists in H as (m' & Hin & E).
  apply move_eqb_eq in E. subst m'.
  unfold legal_moves, plain_legal_moves, legal_castling_moves in Hin.
  apply in_app_or in Hin as [Hin|Hin]; now apply filter_In in Hin.
Qed.

(** Choosing among the matching moves hands out one of them. *)
Lemma pick_in (g : move -> bool) l m :
  match filter g l with
  | [] => Raise IllegalMoveError
  | [m'] => Ok m'
  | _ => Raise AmbiguousMoveError
  end = Ok m -> In m l.
Proof.
  destruct (filter g l) as [|m' [|m'' l']] eqn:E; try discriminate.
  intros H; injection H as <-.
  assert (Hin : In m' (filter g l)) by (rewrite E; now left).
  now apply filter_In in Hin.
Qed.

Lemma pick_raises (g : move -> bool) l e :
  match filter g l with
  | [] => Raise IllegalMoveError
  | [m'] => Ok m'
  | _ => Raise AmbiguousMoveError
  end = Raise e -> is_move_error e = true.
Proof.
  destruct (filter g l) as [|m' [|m'' l']]; intros H; inversion H; reflexivity.
Qed.

Lemma find_move_legal b src dst promo m :
  find_move b src dst promo = Ok m -> is_legal b m = true.
Proof.
  unfold find_move.
  match goal with |- context [is_legal b ?x] => destruct (is_legal b x) eqn:E end;
    [|discriminate].
  intros H; injection H as <-. exact E.
Qed.

Lemma find_move_raises b src dst promo e :
  find_move b src dst promo = Raise e -> is_move_error e = true.
Proof.
  unfold find_move.
  match goal with |- context [is_legal b ?x] => destruct (is_legal b x) end;
    intros H; inversion H; reflexivity.
Qed.

Lemma parse_san_legal_or_null b san m :
  parse_san b san = Ok m -> is_legal b m = true \/ m = move_null.
Proof.
  unfold parse_san.
  destruct (in_strings san _).
  { destruct (find is_kingside (legal_castling_moves b)) as [m'|] eqn:E;
      [|discriminate].
    intros H; injection H as <-. left. apply is_legal_in.
    apply find_some in E as [E _]. unfold legal_moves. apply in_or_app. now right. }
  destruct (in_strings san _).
  { destruct (find _ (legal_castling_moves b)) as [m'|] eqn:E; [|discriminate].
    intros H; injection H as <-. left. apply is_legal_in.
    apply find_some in E as [E _]. unfold legal_moves. apply in_or_app. now right. }
  destruct (san_syntax (chars san)) as [f|].
  - assert (Hpick : forall g, match filter g (plain_legal_moves b) with
                              | [] => Raise IllegalMoveError
                              | [m'] => Ok m'
                              | _ => Raise AmbiguousMoveError
                              end = Ok m -> is_legal b m = true \/ m = move_null).
    { intros g H. left. apply is_legal_in. apply pick_in in H.
      unfold legal_moves. apply in_or_app. now left. }
    destruct (san_piece f); [apply Hpick|].
    destruct (san_file f); [|apply Hpick].
    destruct (san_rank f); [|apply Hpick].
    destruct (find_move b _ (san_to f) (san_promotion f)) as [m'|e] eqn:E;
      [|discriminate].
    destruct (opt_ptype_eqb (promotion m') (san_promotion f)); [|discriminate].
    intros H; injection H as <-. left. now apply find_move_legal in E.
  - destruct (in_strings san _); [|discriminate].
    intros H; injection H as <-. now right.
Qed.

Lemma parse_san_move_error b san e :
  parse_san b san = Raise e -> is_move_error e = true.
Proof.
  unfold parse_san.
  destruct (in_strings san _).
  { destruct (find is_kingside (legal_castling_moves b)); intros H; inversion H.
    reflexivity. }
  destruct (in_strings san _).
  { destruct (find _ (legal_castling_moves b)); intros H; inversion H.
    reflexivity. }
  destruct (san_syntax (chars san)) as [f|].
  - destruct (san_piece f); [apply pick_raises|].
    destruct (san_file f); [|apply pick_raises].
    destruct (san_rank f); [|apply pick_raises].
    destruct (find_move b _ (san_to f) (san_promotion f)) as [m'|e'] eqn:E.
    + destruct (opt_ptype_eqb (promotion m') (san_promotion f));
        intros H; inversion H; reflexivity.
    + intros H; injection H as <-. now apply find_move_raises in E.
  - destruct (in_strings san _); intros H; inversion H. reflexivity.
Qed.

Lemma square_name_index sq :
  sq < 64 ->
  square_index (file_char (square_file sq)) (rank_char (square_rank sq)) = Some sq
  /\ Ascii.eqb (rank_char (square_rank sq)) "@" = false
  /\ Ascii.eqb (file_char (square_file sq)) "0" = false.
Proof.
  intros H.
  do 64 (destruct sq as [|sq]; [vm_compute; auto|]). lia.
Qed.

Lemma symbol_piece_symbol p : symbol_piece (piece_symbol p) = Some p.
Proof. now destruct p. Qed.

(** [Move.from_uci] reads back what [Move.uci] writes. *)
Lemma from_uci_uci_well_formed b m :
  well_formed b m = true -> from_uci (uci m) = Ok m.
Proof.
  destruct m as [src dst promo d]. unfold well_formed. simpl.
  intros H. repeat (apply andb_true_iff in H as [H ?]).
  destruct d; [discriminate|].
  apply Nat.ltb_lt in H.
  match goal with H : (dst <? 64) = true |- _ => apply Nat.ltb_lt in H end.
  match goal with H : negb _ = true |- _ => apply negb_true_iff in H; rename H into Hne end.
  destruct (square_name_index H) as (Hs1 & Hs2 & Hs3).
  match goal with H : dst < 64 |- _ => destruct (square_name_index H) as (Hd1 & _ & _) end.
  unfold uci, from_uci. cbn [drop promotion from_square to_square].
  assert (Hb : move_bool (Mv src dst None None) = true).
  { unfold move_bool, move_eqb, move_null. simpl.
    clear - Hne. destruct src, dst; simpl in *; solve [auto | discriminate]. }
  destruct promo as [p|].
  - unfold str, chars, square_name. cbn [app string_of_list_ascii String.eqb].
    rewrite Hs3. cbn [list_ascii_of_string].
    rewrite Hs1, Hd1, symbol_piece_symbol, Hne. reflexivity.
  - rewrite Hb.
    unfold str, chars, square_name. cbn [app string_of_list_ascii String.eqb].
    rewrite Hs3. cbn [list_ascii_of_string].
    rewrite Hs2, Hs1, Hd1, Hne. reflexivity.
Qed.

Lemma to_chess960_from b m : from_square (to_chess960 b m) = from_square m.
Proof.
  unfold to_chess960.
  repeat match goal with
         | |- context [if ?c then _ else _] =>
             let E := fresh "E" in destruct c eqn:E
         end; simpl; auto;
  repeat match goal with
         | H : _ && _ = true |- _ => apply andb_true_iff in H as [H ?]
         end;
  match goal with
  | H : (from_square m =? _) = true |- _ => apply Nat.eqb_eq in H; now rewrite H
  end.
Qed.

(** [push] goes through whenever a piece stands on the origin square. *)
Lemma push_occupied b m :
  occupied b (from_square m) = true -> exists b', push b m = Ok b'.
Proof.
  unfold occupied, push. rewrite to_chess960_from.
  destruct (negb (move_bool (to_chess960 b m))); eauto.
  destruct (drop (to_chess960 b m)); eauto.
  destruct (piece_at b (from_square m)) as [[t c]|]; [eauto | discriminate].
Qed.

Lemma push_null b : exists b', push b move_null = Ok b'.
Proof.
  unfold push.
  assert (E : to_chess960 b move_null = move_null) by reflexivity.
  rewrite E. simpl. eauto.
Qed.

Lemma push_assertion b m e : push b m = Raise e -> e = AssertionError.
Proof.
  unfold push.
  destruct (negb (move_bool (to_chess960 b m))); [discriminate|].
  destruct (drop (to_chess960 b m)); [discriminate|].
  destruct (piece_at b (from_square (to_chess960 b m))) as [[t c]|];
    [discriminate|]. congruence.
Qed.

#[export] Instance engine_laws : ChessLaws engine.
Proof.
  split; simpl.
  - exact parse_san_legal_or_null.
  - exact parse_san_move_error.
  - intros b m [H| ->]; [|reflexivity].
    apply (from_uci_uci_well_formed b). now apply is_legal_well_formed.
  - intros b m [H| ->]; [|apply push_null].
    apply push_occupied. apply is_legal_well_formed in H.
    unfold well_formed in H. repeat (apply andb_true_iff in H as [H ?]).
    assumption.
  - intros b m e H. apply push_assertion in H. now subst.
Qed.

End PyChessFacts.

(** ** The program at work *)

Section Examples.

Let extract := extract_uci_moves_from_movetext (C:=PyChess.engine).
Let render := get_board_ascii (C:=PyChess.engine).

(** The transcript of the docstring of the translator. *)
Example normalize_annotated :
  normalize "1. e4 { [%eval 0.24] [%clk 1:40:57] } 1... c5 2. Nf3 { [%clk 1:40:50] } 1-0"
  = ["e4"; "c5"; "Nf3"].
Proof. vm_compute. reflexivity. Qed.

Example normalize_odd_numbers :
  normalize "1.... e4 12.e5 3 4. . 7.. 9....x 31-0"
  = ["."; "e4"; "e5"; "3"; "."; ".x"; "3"].
Proof. vm_compute. reflexivity. Qed.

Example normalize_open_brace :
  normalize "{ no close 1. e4" = ["{"; "no"; "close"; "e4"].
Proof. vm_compute. reflexivity. Qed.

Example extract_castling :
  extract (PyStr "1. e4 e5 2. Nf3 Nc6 3. Bb5 a6 4. Ba4 Nf6 5. O-O Be7")
  = Ok ["e2e4"; "e7e5"; "g1f3"; "b8c6"; "f1b5"; "a7a6"; "b5a4"; "g8f6";
        "e1g1"; "f8e7"].
Proof. vm_compute. reflexivity. Qed.

Example extract_en_passant_and_promotion :
  extract (PyStr "1. e4 d5 2. e5 f5 3. exf6 e6 4. fxg7 Ke7 5. gxh8=Q Nf6 6. Qxf8+")
  = Ok ["e2e4"; "d7d5"; "e4e5"; "f7f5"; "e5f6"; "e7e6"; "f6g7"; "e8e7";
        "g7h8q"; "g8f6"; "h8f8"].
Proof. vm_compute. reflexivity. Qed.

(** An illegal move at the tenth ply leaves nine moves. *)
Example extract_truncates :
  extract (PyStr "1. e4 e5 2. Nf3 Nc6 3. Bb5 a6 4. Ba4 Nf6 5. O-O Qh4 6. Re1")
  = Ok ["e2e4"; "e7e5"; "g1f3"; "b8c6"; "f1b5"; "a7a6"; "b5a4"; "g8f6"; "e1g1"].
Proof. vm_compute. reflexivity. Qed.

Example render_after_castling :
  render ["e2e4"; "e7e5"; "g1f3"; "b8c6"; "f1b5"; "a7a6"; "b5a4"; "g8f6"; "e1g1"]
  = Ok "r . b q k b . r
. p p p . p p p
p . n . . n . .
. . . . p . . .
B . . . P . . .
. . . . . N . .
P P P P . P P P
R N B Q . R K .".
Proof. vm_compute. reflexivity. Qed.

(** An identifier that does not parse gives the initial position. *)
Example render_fallback :
  render ["e2e4"; "zz"]
  = Ok "r n b q k b n r
p p p p p p p p
. . . . . . . .
. . . . . . . .
. . . . . . . .
. . . . . . . .
P P P P P P P P
R N B Q K B N R".
Proof. vm_compute. reflexivity. Qed.

(** [push] asserts that a piece stands on the origin square; that error
    is none of those the renderer catches. *)
Example render_empty_origin : render ["e4e5"] = Raise AssertionError.
Proof. vm_compute. reflexivity. Qed.

End Examples.

(** * The claims *)

(** ** The normaliser *)

(** C4, counterexample: a result marker that does not end the text stays
    in the token list.  Of the two markers in ["1-0 1-0"] only the last
    is cut. *)
Lemma result_marker_inside_stays :
  normalize "1-0 1-0" = ["1-0"]
  /\ In "1-0" (normalize "e4 1-0 e5")
  /\ is_result_marker "1-0" = true.
Proof. vm_compute. auto. Qed.

(** C4, amended: no token of the normaliser matches the move-number
    pattern (digits followed by one or more periods).  Of the result
    markers only one that ends the text left by the first two
    substitutions is removed, with the white space around it: what the
    third substitution cuts is nothing or such an ending, and where the
    text has such an ending one is cut. *)
Theorem normalizer_tokens (movetext : string) :
  let numbered := strip_move_numbers (strip_annotations (chars movetext)) in
  (forall tok, In tok (normalize movetext) -> is_move_number tok = false)
  /\ (exists cut, numbered = clean (chars movetext) ++ cut
                  /\ (cut = [] \/ trailing_result cut))
  /\ (forall pre cut, numbered = pre ++ cut -> trailing_result cut ->
        exists cut', numbered = clean (chars movetext) ++ cut'
                     /\ trailing_result cut').
Proof.
  intros numbered. split; [|split].
  - intros tok H. apply numdot_no_move_number. now apply normalize_numdot in H.
  - apply strip_result_cut.
  - intros pre cut E Hcut. unfold clean. fold numbered. rewrite E.
    now apply strip_result_trailing.
Qed.

Lemma normalizer_tokens_witness :
  is_move_number "e4" = false
  /\ exists cut', chars "e4 e5 1-0" = clean (chars "1. e4 e5 1-0") ++ cut'
                  /\ trailing_result cut'.
Proof.
  destruct (normalizer_tokens "1. e4 e5 1-0") as (H1 & _ & H3). split.
  - apply H1. vm_compute. auto.
  - apply (H3 (chars "e4 e5") (chars " 1-0")); [reflexivity|].
    exists (chars " "), "1-0", []. vm_compute. repeat split; auto.
Defined.

(** ** The translator *)

(** C1, counterexample: the token [--] is parsed as the null move, whose
    identifier [0000] is handed out although the null move is not legal in
    the initial position. *)
Lemma null_move_is_translated :
  extract_uci_moves_from_movetext (C:=PyChess.engine) (PyStr "--") = Ok ["0000"]
  /\ ~ playable (C:=PyChess.engine) legal ["0000"].
Proof.
  split; [vm_compute; reflexivity|].
  intros H. destruct (H 0 "0000" eq_refl) as (b & m & Hb & Hm & Hl).
  simpl in Hb. injection Hb as <-.
  vm_compute in Hm. injection Hm as <-.
  vm_compute in Hl. discriminate.
Qed.

(** C1, amended: every element of a list the translator returns is a
    legal move or the null move in the position reached by replaying the
    elements before it from the initial position; and the list holds the
    identifiers of the longest run of tokens, from the first on, that
    [parse_san] accepts in turn: it ends at the first token that raises,
    or with the last token. *)
Theorem translator_moves_legal_or_null {C : Chess} {L : ChessLaws C} :
  (forall v l, extract_uci_moves_from_movetext v = Ok l ->
     playable legal_or_null l)
  /\ (forall s, exists k ms b,
        k <= length (normalize s)
        /\ accepted new_board (firstn k (normalize s)) ms b
        /\ (k = length (normalize s)
            \/ exists tok e, nth_error (normalize s) k = Some tok
                             /\ parse_san b tok = Raise e)
        /\ extract_uci_moves_from_movetext (PyStr s) = Ok (map uci ms)).
Proof.
  split.
  - intros v l H. apply extract_canonical in H as (toks & ms & b & Ha & ->).
    intros i u Hu. now apply (accepted_playable Ha).
  - intros s.
    destruct (san_loop_longest (normalize s) new_board [])
      as (k & ms & b & Hk & Ha & Hs & Hl).
    exists k, ms, b. repeat split; auto.
    unfold extract_uci_moves_from_movetext, extract_body. now rewrite Hl.
Qed.

Lemma translator_moves_legal_or_null_witness :
  playable (C:=PyChess.engine) legal_or_null ["e2e4"; "e7e5"].
Proof.
  apply (proj1 (translator_moves_legal_or_null (L:=PyChessFacts.engine_laws))
           (PyStr "1. e4 e5 2. Ke3 Nf6")).
  vm_compute. reflexivity.
Defined.

(** C5: the translator returns a list for every input.  A token on which
    [parse_san] raises a move error ends the loop, and the identifiers of
    the tokens before it are returned.  Any exception that leaves the body
    gives the empty list: that is [TypeError] for a value that is no
    string, and whatever else [parse_san] raises. *)
Theorem translator_never_raises {C : Chess} :
  (forall v, exists l, extract_uci_moves_from_movetext v = Ok l)
  /\ (forall s pre tok post ms b e,
        normalize s = pre ++ tok :: post ->
        accepted new_board pre ms b ->
        parse_san b tok = Raise e ->
        is_move_error e = true ->
        extract_uci_moves_from_movetext (PyStr s) = Ok (map uci ms))
  /\ (forall v e, extract_body v = Raise e ->
        extract_uci_moves_from_movetext v = Ok [])
  /\ (forall v, (forall s, v <> PyStr s) -> extract_body v = Raise TypeError)
  /\ (forall s pre tok post ms b e,
        normalize s = pre ++ tok :: post ->
        accepted new_board pre ms b ->
        parse_san b tok = Raise e ->
        is_move_error e = false ->
        extract_body (PyStr s) = Raise e).
Proof.
  repeat split.
  - intros v. unfold extract_uci_moves_from_movetext.
    destruct (extract_body v); eauto.
  - intros s pre tok post ms b e Hn Ha He Hm.
    unfold extract_uci_moves_from_movetext, extract_body.
    rewrite Hn. erewrite san_loop_stops by eassumption. now rewrite Hm.
  - intros v e H. unfold extract_uci_moves_from_movetext. now rewrite H.
  - intros [|s|z] H; try reflexivity. now destruct (H s).
  - intros s pre tok post ms b e Hn Ha He Hm. unfold extract_body.
    rewrite Hn. erewrite san_loop_stops by eassumption. now rewrite Hm.
Qed.

Lemma translator_never_raises_witness :
  extract_uci_moves_from_movetext (C:=PyChess.engine)
    (PyStr "1. e4 e5 2. Ke3 Nf6") = Ok ["e2e4"; "e7e5"]
  /\ extract_uci_moves_from_movetext (C:=PyChess.engine) (PyInt 7) = Ok [].
Proof.
  destruct (translator_never_raises (C:=PyChess.engine)) as (_ & H2 & H3 & H4 & _).
  split.
  - eapply (H2 "1. e4 e5 2. Ke3 Nf6" ["e4"; "e5"] "Ke3" ["Nf6"]
              [PyChess.Mv 12 28 None None; PyChess.Mv 52 36 None None]).
    + vm_compute. reflexivity.
    + repeat (econstructor; [vm_compute; reflexivity | vm_compute; reflexivity |]).
      constructor.
    + vm_compute. reflexivity.
    + reflexivity.
  - apply (H3 _ TypeError). apply H4. discriminate.
Defined.

(** ** The board renderer *)




(** C10: the renderer never asks whether a move is legal.  Every
    identifier that parses is handed to [push], and the loop goes on with
    the board that [push] returns.  So a list whose identifiers parse and
    push is rendered as the position it leads to; the initial position is
    rendered in its place only when an identifier does not parse ([push]
    raises no move error); any other exception goes to the caller.  In
    the model of the package the identifier [e2e5] parses, is not legal in
    the initial position, and the rendering returned is that of the
    position with the pawn on e5. *)
Theorem renderer_ignores_legality {C : Chess} {L : ChessLaws C} :
  (forall b u m rest, from_uci u = Ok m ->
     board_loop b (u :: rest) = (b' <- push b m ;; board_loop b' rest))
  /\ (forall l b, replay new_board l = Ok b ->
        get_board_ascii l = Ok (board_str b))
  /\ (forall l,
        (exists b, replay new_board l = Ok b
                   /\ get_board_ascii l = Ok (board_str b))
        \/ (exists pre u post b e,
              l = pre ++ u :: post /\ replay new_board pre = Ok b
              /\ from_uci u = Raise e /\ is_move_error e = true
              /\ get_board_ascii l = Ok (board_str new_board))
        \/ (exists e, is_move_error e = false /\ get_board_ascii l = Raise e))
  /\ (exists (m : PyChess.move) (b : PyChess.board),
        from_uci (Chess:=PyChess.engine) "e2e5" = Ok m
        /\ is_legal (Chess:=PyChess.engine) new_board m = false
        /\ push (Chess:=PyChess.engine) new_board m = Ok b
        /\ get_board_ascii (C:=PyChess.engine) ["e2e5"]
           = Ok (board_str (Chess:=PyChess.engine) b)
        /\ board_str (Chess:=PyChess.engine) b
           <> board_str (Chess:=PyChess.engine) new_board).
Proof.
  split; [|split; [|split]].
  - intros b u m rest Hu. simpl. rewrite Hu. simpl.
    destruct (push b m) as [b'|e] eqn:Ep; simpl; auto.
    now rewrite (push_raises Ep).
  - intros l b H. now apply replay_board_loop.
  - intros l. destruct (replay_cases l new_board)
      as [[b Hb]|(pre & u & post & b & e & -> & Hr & He)].
    + left. exists b. split; auto. now apply replay_board_loop.
    + right. unfold get_board_ascii.
      erewrite board_loop_fallback by eassumption.
      destruct (is_move_error e) eqn:Em; [left | right; eauto].
      exists pre, u, post, b, e. repeat split; auto.
      destruct (from_uci u) as [m|e'] eqn:Eu; simpl in He; [|congruence].
      apply push_raises in He. congruence.
  - eexists. eexists. repeat split; try (vm_compute; reflexivity).
    vm_compute. discriminate.
Qed.

Lemma renderer_ignores_legality_witness :
  exists s, get_board_ascii (C:=PyChess.engine) ["e2e4"; "e4e6"; "e6d7"] = Ok s.
Proof.
  destruct (renderer_ignores_legality (L:=PyChessFacts.engine_laws))
    as (_ & H & _).
  eexists. apply H. vm_compute. reflexivity.
Defined.

(** ** The prefix generator *)

(** C2, counterexample: with threshold 0 and a list of two moves the
    generator emits two prefixes, not the three that length - threshold
    + 1 gives; the first has length 1, not 0. *)
Lemma zero_threshold_starts_at_one :
  exists l ps bs,
    extract_uci_moves_from_movetext (C:=PyChess.engine) (PyStr "1. e4 e5") = Ok l
    /\ generate_move_prefixes (C:=PyChess.engine) l 0 = Ok (ps, bs)
    /\ (Z.of_nat (length l) >= 0)%Z
    /\ Z.of_nat (length ps) <> (Z.of_nat (length l) - 0 + 1)%Z
    /\ nth_error ps 0 = Some "e2e4".
Proof.
  eexists. eexists. eexists.
  split; [vm_compute; reflexivity|].
  split; [vm_compute; reflexivity|].
  repeat split; vm_compute; congruence.
Qed.

(** C2, amended: the count starts at the larger of 1 and the threshold.
    For a list of length n that the translator returned and a threshold t,
    with s the larger of 1 and t: if n >= s the generator emits exactly
    n - s + 1 prefixes, the k-th of them (from 0) being the first s + k
    moves, so that the lengths rise by one from s to n; if n < s it emits
    none.  For t >= 1 this is the count from t. *)
Theorem prefix_count {C : Chess} {L : ChessLaws C} (v : pyval)
    (l : list string) (t : Z) :
  extract_uci_moves_from_movetext v = Ok l ->
  let n := Z.of_nat (length l) in
  let s := Z.max 1 t in
  exists ps bs,
    generate_move_prefixes l t = Ok (ps, bs)
    /\ length bs = length ps
    /\ ((s <= n)%Z ->
        Z.of_nat (length ps) = (n - s + 1)%Z
        /\ forall k, k < length ps ->
             nth_error ps k = Some (join " " (firstn (Z.to_nat s + k) l))
             /\ length (firstn (Z.to_nat s + k) l) = Z.to_nat s + k)
    /\ ((n < s)%Z -> ps = [] /\ bs = []).
Proof.
  intros H n s. apply extract_canonical in H.
  rewrite (generate_canonical t H). fold n s.
  eexists. eexists. split; [reflexivity|].
  split; [now rewrite !length_map|]. split.
  - intros Hs. rewrite length_map, py_range_length. split; [lia|].
    intros k Hk. rewrite nth_error_map, py_range_nth by lia. simpl.
    replace (Z.to_nat (s + Z.of_nat k)) with (Z.to_nat s + k) by lia.
    split; auto. rewrite length_firstn. lia.
  - intros Hs. rewrite py_range_empty by lia. auto.
Qed.

Lemma prefix_count_witness :
  exists ps bs,
    generate_move_prefixes (C:=PyChess.engine) ["e2e4"; "e7e5"; "g1f3"] 2
      = Ok (ps, bs)
    /\ Z.of_nat (length ps) = 2%Z.
Proof.
  destruct (prefix_count (L:=PyChessFacts.engine_laws)
              (PyStr "1. e4 e5 2. Nf3 Ke3") (l:=["e2e4"; "e7e5"; "g1f3"]) 2)
    as (ps & bs & H1 & _ & H3 & _).
  - vm_compute. reflexivity.
  - exists ps, bs. split; [exact H1|]. apply H3. vm_compute. discriminate.
Defined.

(** C3: for a list the translator returned and every length L from the
    starting length to the length of the list, the row for L holds the
    first L identifiers joined by single blanks and the rendering of the
    position reached by replaying them from the initial position.  A
    list of 20 moves with threshold 15 gives 6 rows, the first with the
    first 15 identifiers and the last with all 20.  The driver appends
    the rows of a game to the two columns. *)
Theorem prefix_rows {C : Chess} {L : ChessLaws C} (v : pyval)
    (l : list string) (t : Z) :
  extract_uci_moves_from_movetext v = Ok l ->
  exists ps bs,
    generate_move_prefixes l t = Ok (ps, bs)
    /\ (forall len, (Z.max 1 t <= len <= Z.of_nat (length l))%Z ->
          let k := Z.to_nat (len - Z.max 1 t) in
          nth_error ps k = Some (join " " (firstn (Z.to_nat len) l))
          /\ exists b, replay new_board (firstn (Z.to_nat len) l) = Ok b
                       /\ nth_error bs k = Some (board_str b))
    /\ (length l = 20 -> t = 15%Z ->
          length ps = 6 /\ length bs = 6
          /\ nth_error ps 0 = Some (join " " (firstn 15 l))
          /\ nth_error ps 5 = Some (join " " l))
    /\ (forall acc g, lookup "movetext" g = Some v -> v <> PyNone ->
          15 <= length l -> t = default_min_moves ->
          process_game acc g =
          Ok {| uci_prefix := uci_prefix acc ++ ps;
                board_ascii := board_ascii acc ++ bs |}).
Proof.
  intros H. pose proof (extract_canonical _ H) as Hc.
  pose proof (generate_canonical t Hc) as Hg. rewrite Hg.
  eexists. eexists. split; [reflexivity|].
  assert (Hrow : forall len, (Z.max 1 t <= len <= Z.of_nat (length l))%Z ->
            let k := Z.to_nat (len - Z.max 1 t) in
            nth_error (map (fun i => join " " (firstn (Z.to_nat i) l))
                         (py_range (Z.max 1 t) (Z.of_nat (length l) + 1))) k
              = Some (join " " (firstn (Z.to_nat len) l))
            /\ exists b, replay new_board (firstn (Z.to_nat len) l) = Ok b
                 /\ nth_error (map (board_after l)
                         (py_range (Z.max 1 t) (Z.of_nat (length l) + 1))) k
                    = Some (board_str b)).
  { intros len Hlen k. rewrite !nth_error_map, py_range_nth by lia.
    replace (Z.max 1 t + Z.of_nat k)%Z with len by lia. simpl.
    split; auto.
    destruct (@canonical_board_ascii _ _ l len Hc) as (b & Hb1 & Hb2); [lia|].
    exists b. split; auto. unfold board_after. now rewrite Hb2. }
  split; [exact Hrow|]. split.
  - intros Hl ->.
    split; [rewrite length_map, py_range_length, Hl; reflexivity|].
    split; [rewrite length_map, py_range_length, Hl; reflexivity|].
    split.
    + destruct (Hrow 15%Z) as [H1 _]; [lia|]. exact H1.
    + destruct (Hrow 20%Z) as [H1 _]; [lia|].
      change (Z.to_nat 20) with 20 in H1.
      rewrite firstn_all2 in H1 by lia. exact H1.
  - intros acc g Hv Hn Hl ->. unfold process_game. rewrite Hv.
    destruct v as [|s|z]; [congruence| |]; rewrite H; simpl;
      (destruct (Nat.eqb_spec (length l) 0); [lia|]);
      (destruct (Nat.ltb_spec (length l) 15); [lia|]);
      rewrite Hg; reflexivity.
Qed.

Lemma prefix_rows_witness :
  exists ps bs,
    generate_move_prefixes (C:=PyChess.engine)
      ["e2e4"; "e7e5"; "g1f3"; "b8c6"; "f1b5"; "a7a6"; "b5a4"; "g8f6";
       "e1g1"; "f8e7"; "f1e1"; "b7b5"; "a4b3"; "d7d6"; "c2c3"; "e8g8";
       "h2h3"; "c6b8"; "d2d4"; "b8d7"] 15 = Ok (ps, bs)
    /\ length ps = 6
    /\ nth_error ps 0 = Some
         "e2e4 e7e5 g1f3 b8c6 f1b5 a7a6 b5a4 g8f6 e1g1 f8e7 f1e1 b7b5 a4b3 d7d6 c2c3"
    /\ nth_error ps 5 = Some
         "e2e4 e7e5 g1f3 b8c6 f1b5 a7a6 b5a4 g8f6 e1g1 f8e7 f1e1 b7b5 a4b3 d7d6 c2c3 e8g8 h2h3 c6b8 d2d4 b8d7".
Proof.
  destruct (prefix_rows (L:=PyChessFacts.engine_laws)
    (PyStr "1. e4 e5 2. Nf3 Nc6 3. Bb5 a6 4. Ba4 Nf6 5. O-O Be7 6. Re1 b5 7. Bb3 d6 8. c3 O-O 9. h3 Nb8 10. d4 Nbd7 1-0")
    (l:=["e2e4"; "e7e5"; "g1f3"; "b8c6"; "f1b5"; "a7a6"; "b5a4"; "g8f6";
         "e1g1"; "f8e7"; "f1e1"; "b7b5"; "a4b3"; "d7d6"; "c2c3"; "e8g8";
         "h2h3"; "c6b8"; "d2d4"; "b8d7"]) 15)
    as (ps & bs & H1 & _ & H3 & _).
  - vm_compute. reflexivity.
  - exists ps, bs. split; [exact H1|].
    destruct (H3 eq_refl eq_refl) as (Ha & _ & Hb & Hc). auto.
Defined.



(** ** The corpus driver *)

(** C7: a record without the transcript field, with a null transcript or
    with the empty string as transcript leaves the two columns as they
    are and raises nothing, and so does a record whose move list is
    shorter than 15, the empty list included: the turn of the loop ends
    before the prefix generator is called.  Such a record adds no row to
    the table of the corpus. *)
Theorem skipped_records {C : Chess} (g : game) :
  lookup "movetext" g = None
  \/ lookup "movetext" g = Some PyNone
  \/ lookup "movetext" g = Some (PyStr EmptyString)
  \/ (exists v l, lookup "movetext" g = Some v
                  /\ extract_uci_moves_from_movetext v = Ok l
                  /\ length l < 15) ->
  (forall acc, process_game acc g = Ok acc)
  /\ (forall ds1 ds2,
        process_dataset (ds1 ++ g :: ds2) None
        = process_dataset (ds1 ++ ds2) None).
Proof.
  intros H.
  assert (Hskip : forall acc, process_game acc g = Ok acc).
  { intros acc. unfold process_game.
    destruct H as [->|[->|[->|(v & l & -> & Hl & Hn)]]]; auto.
    destruct v; auto; rewrite Hl; simpl;
      destruct (length l =? 0); auto;
      destruct (Nat.ltb_spec (length l) 15); auto; lia. }
  split; auto.
  intros ds1 ds2. rewrite !process_dataset_none, !run_games_app.
  destruct (run_games ds1 empty_table) as [acc|e]; simpl; auto.
  now rewrite Hskip.
Qed.

Lemma skipped_records_witness :
  process_game (C:=PyChess.engine) empty_table
    [("site", PyStr "lichess"); ("movetext", PyStr "1. e4 e5 2. Nf3 Nc6")]
  = Ok empty_table.
Proof.
  refine (proj1 (@skipped_records PyChess.engine
    [("site", PyStr "lichess"); ("movetext", PyStr "1. e4 e5 2. Nf3 Nc6")] _)
    empty_table).
  right. right. right.
  exists (PyStr "1. e4 e5 2. Nf3 Nc6"), ["e2e4"; "e7e5"; "g1f3"; "b8c6"].
  split; [reflexivity|]. split; [vm_compute; reflexivity|]. simpl. lia.
Defined.

(** C8: with a maximum game count of 0 the corpus is processed as with
    no count at all, every record of it in turn.  A count other than 0
    cuts the run to the smaller of the count and the number of records. *)
Theorem zero_cap_is_no_cap {C : Chess} (input_dataset : list game) :
  process_dataset input_dataset (Some 0%Z) = process_dataset input_dataset None
  /\ process_dataset input_dataset None = run_games input_dataset empty_table
  /\ (forall m, m <> 0%Z ->
        process_dataset input_dataset (Some m)
        = run_games
            (firstn (Z.to_nat (Z.min (Z.of_nat (length input_dataset)) m))
               input_dataset) empty_table).
Proof.
  split; [reflexivity|]. split.
  - apply process_dataset_none.
  - apply process_dataset_cap.
Qed.

Lemma zero_cap_is_no_cap_witness :
  process_dataset (C:=PyChess.engine)
    [[("movetext", PyStr "1. e4 e5")]; []; [("movetext", PyNone)]] (Some 2%Z)
  = run_games (C:=PyChess.engine) [[("movetext", PyStr "1. e4 e5")]; []]
      empty_table.
Proof.
  apply (proj2 (proj2 (zero_cap_is_no_cap (C:=PyChess.engine)
    [[("movetext", PyStr "1. e4 e5")]; []; [("movetext", PyNone)]])) 2%Z).
  discriminate.
Defined.

(** * Further properties of the program *)

(** ** The matcher and the three substitutions *)

Section Substitutions.

Ltac by_chr c := destruct c as [[|] [|] [|] [|] [|] [|] [|] [|]]; vm_compute; congruence.

Lemma not_rbrace_is c : not_chr rbrace c = false -> is_chr rbrace c = true.
Proof. by_chr c. Qed.

Lemma is_rbrace_not c : is_chr rbrace c = true -> not_chr rbrace c = false.
Proof. by_chr c. Qed.

Lemma space_not_lbrace c : is_space c = true -> is_chr lbrace c = false.
Proof. by_chr c. Qed.

Lemma star_cls_suffix p s (k : cont) x :
  star_cls p s k = Some x -> exists pre s', s = pre ++ s' /\ k s' = Some x.
Proof.
  induction s as [|c s IH]; simpl; intros H.
  - exists [], []. auto.
  - destruct (p c).
    + destruct (star_cls p s k) as [y|] eqn:E.
      * injection H as ->. destruct (IH eq_refl) as (pre & s' & -> & Hk).
        exists (c :: pre), s'. auto.
      * exists [], (c :: s). auto.
    + exists [], (c :: s). auto.
Qed.

(** What a match leaves is a suffix of the text it started on. *)
Lemma rmatch_suffix r : forall s (k : cont) x,
  rmatch r s k = Some x -> exists pre s', s = pre ++ s' /\ k s' = Some x.
Proof.
  induction r as [p|p|r1 IH1 r2 IH2|r1 IH1 r2 IH2| |]; intros s k x H; simpl in H.
  - destruct s as [|c s]; [discriminate|]. destruct (p c); [|discriminate].
    exists [c], s. auto.
  - eapply star_cls_suffix; eassumption.
  - destruct (IH1 _ _ _ H) as (pre1 & s1 & -> & H1).
    destruct (IH2 _ _ _ H1) as (pre2 & s2 & -> & H2).
    exists (pre1 ++ pre2), s2. now rewrite app_assoc.
  - destruct (rmatch r1 s k) as [y|] eqn:E.
    + injection H as ->. exact (IH1 _ _ _ E).
    + exact (IH2 _ _ _ H).
  - exists [], s. auto.
  - destruct (at_end s); [|discriminate]. exists [], s. auto.
Qed.

Lemma match_at_suffix r s rest :
  match_at r s = Some rest -> exists pre, s = pre ++ rest.
Proof.
  intros H. destruct (rmatch_suffix _ _ _ H) as (pre & s' & -> & H').
  injection H' as ->. eauto.
Qed.

(** A substitution only deletes: what it returns has its characters from
    the text it was given. *)
Lemma re_sub_in r s c : In c (re_sub r s) -> In c s.
Proof.
  remember (length s) as n eqn:Hn.
  assert (Hle : length s <= n) by lia. clear Hn.
  revert s Hle. induction n as [|n IH]; intros s Hle H.
  - destruct s; simpl in Hle; [exact H | lia].
  - destruct s as [|a s]; [exact H|]. rewrite re_sub_cons in H.
    simpl in Hle.
    destruct (match_at r (a :: s)) as [rest|] eqn:Em.
    + destruct (Nat.ltb_spec (length rest) (S (length s))).
      * apply match_at_suffix in Em as [pre Em]. rewrite Em.
        apply in_or_app. right. apply IH; [lia | exact H].
      * destruct H as [<-|H]; [now left | right; apply IH; [lia | exact H]].
    + destruct H as [<-|H]; [now left | right; apply IH; [lia | exact H]].
Qed.

(** Where the pattern matches nowhere the text comes back as it is. *)
Lemma re_sub_no_match r s :
  (forall pre suf, s = pre ++ suf -> match_at r suf = None) -> re_sub r s = s.
Proof.
  induction s as [|c s IH]; intros H; [reflexivity|].
  rewrite re_sub_cons, (H [] (c :: s) eq_refl). f_equal. apply IH.
  intros pre suf E. apply (H (c :: pre)). simpl. now f_equal.
Qed.

Lemma drop_while_not_rbrace s :
  drop_while (not_chr rbrace) s = [] <-> existsb (is_chr rbrace) s = false.
Proof.
  induction s as [|c s IH]; simpl; [tauto|].
  destruct (not_chr rbrace c) eqn:E.
  - assert (E' : is_chr rbrace c = false).
    { destruct (is_chr rbrace c) eqn:E'; auto.
      apply is_rbrace_not in E'. congruence. }
    rewrite E'. exact IH.
  - rewrite (not_rbrace_is c E). simpl. split; discriminate.
Qed.

Lemma match_at_annotation s : match_at ANNOTATION s = annotation_at s.
Proof.
  unfold match_at, ANNOTATION, Chr, annotation_at. cbn [rmatch].
  destruct s as [|c s1]; auto.
  destruct (is_chr lbrace c); auto.
  rewrite star_cls_greedy.
  - destruct (drop_while (not_chr rbrace) s1) as [|x s3] eqn:E; auto.
    apply drop_while_head in E. now rewrite (not_rbrace_is x E).
  - intros x t Hx. destruct (is_chr rbrace x) eqn:E; auto.
    apply is_rbrace_not in E. congruence.
Qed.

Lemma annotation_at_shorter s rest :
  annotation_at s = Some rest -> length rest < length s.
Proof.
  destruct s as [|c s1]; simpl; [discriminate|].
  destruct (is_chr lbrace c); [|discriminate].
  pose proof (drop_while_length (not_chr rbrace) s1) as Hl.
  destruct (drop_while (not_chr rbrace) s1) as [|x s3]; [discriminate|].
  intros H; injection H as <-. simpl in Hl. lia.
Qed.

Lemma existsb_re_sub p r s :
  existsb p s = false -> existsb p (re_sub r s) = false.
Proof.
  intros H. destruct (existsb p (re_sub r s)) eqn:E; auto.
  apply existsb_exists in E as (c & Hc & Hp). apply re_sub_in in Hc.
  assert (E : existsb p s = true) by (apply existsb_exists; eauto).
  congruence.
Qed.

Lemma brace_pair_strip s : brace_pair (strip_annotations s) = false.
Proof.
  unfold strip_annotations.
  remember (length s) as n eqn:Hn.
  assert (Hle : length s <= n) by lia. clear Hn.
  revert s Hle. induction n as [|n IH]; intros s Hle.
  - destruct s; simpl in Hle; [reflexivity | lia].
  - destruct s as [|c s]; [reflexivity|].
    rewrite re_sub_cons, match_at_annotation. simpl in Hle.
    destruct (annotation_at (c :: s)) as [rest|] eqn:Ea.
    + pose proof (annotation_at_shorter _ Ea) as Hl. simpl in Hl.
      destruct (Nat.ltb_spec (length rest) (S (length s))); [|lia].
      apply IH. lia.
    + cbn [brace_pair]. rewrite IH by lia. rewrite orb_false_r.
      destruct (is_chr lbrace c) eqn:Ec; auto. simpl.
      apply existsb_re_sub. apply drop_while_not_rbrace.
      simpl in Ea. rewrite Ec in Ea.
      now destruct (drop_while (not_chr rbrace) s).
Qed.

Lemma strip_annotations_fixed s :
  brace_pair s = false -> strip_annotations s = s.
Proof.
  unfold strip_annotations. induction s as [|c s IH]; intros H; [reflexivity|].
  cbn [brace_pair] in H. apply orb_false_iff in H as [H1 H2].
  rewrite re_sub_cons, match_at_annotation.
  assert (Ea : annotation_at (c :: s) = None).
  { simpl. destruct (is_chr lbrace c); auto. simpl in H1.
    apply drop_while_not_rbrace in H1. now rewrite H1. }
  rewrite Ea. f_equal. auto.
Qed.

Lemma strip_move_numbers_fixed s :
  numdot s = false -> strip_move_numbers s = s.
Proof.
  unfold strip_move_numbers. induction s as [|c s IH]; intros H; [reflexivity|].
  rewrite re_sub_cons, match_at_move_number.
  assert (Em : move_number_at (c :: s) = None).
  { simpl. destruct (is_digit c) eqn:Ec; auto.
    pose proof (@numdot_digits s c Ec H) as Hh.
    destruct (drop_while is_digit s) as [|x t]; auto.
    simpl in Hh. now rewrite Hh. }
  rewrite Em. f_equal. apply IH.
  rewrite numdot_cons in H. now apply orb_false_iff in H as [_ H].
Qed.

End Substitutions.

(** ** The normaliser *)

(** X1: after the first substitution no opening brace is left with a
    closing brace anywhere behind it.  The texts without such a pair are
    the ones the substitution returns unchanged, so applying it twice is
    applying it once. *)
Theorem annotations_all_removed (s : text) :
  brace_pair (strip_annotations s) = false
  /\ (strip_annotations s = s <-> brace_pair s = false)
  /\ strip_annotations (strip_annotations s) = strip_annotations s.
Proof.
  split; [apply brace_pair_strip|]. split.
  - split; [|apply strip_annotations_fixed].
    intros E. rewrite <- E. apply brace_pair_strip.
  - apply strip_annotations_fixed, brace_pair_strip.
Qed.

(** X2: an annotation is deleted and nothing is put in its place.  Before
    the first opening brace the text is kept, and the braces with what
    they hold, up to the first closing brace, are dropped; the words on
    the two sides of an annotation that has no blank around it become one
    token. *)
Theorem annotation_deleted_in_place (a c b : text) :
  existsb (is_chr lbrace) a = false ->
  existsb (is_chr rbrace) c = false ->
  strip_annotations (a ++ lbrace :: c ++ rbrace :: b) = a ++ strip_annotations b.
Proof.
  intros Ha Hc. unfold strip_annotations.
  induction a as [|x a IH]; simpl in *.
  - rewrite re_sub_cons, match_at_annotation.
    assert (Ea : annotation_at (lbrace :: c ++ rbrace :: b) = Some b).
    { simpl. change (is_chr lbrace lbrace) with true. cbv iota.
      clear - Hc. induction c as [|y c IH]; simpl in *.
      - reflexivity.
      - apply orb_false_iff in Hc as [Hy Hc].
        assert (Hn : not_chr rbrace y = true).
        { unfold not_chr, is_chr in *. now rewrite Hy. }
        rewrite Hn. auto. }
    rewrite Ea. rewrite length_app. simpl.
    destruct (Nat.ltb_spec (length b) (S (length c + S (length b)))); [reflexivity | lia].
  - apply orb_false_iff in Ha as [Hx Ha].
    rewrite re_sub_cons, match_at_annotation. simpl. rewrite Hx.
    f_equal. auto.
Qed.

Lemma annotation_deleted_in_place_witness :
  strip_annotations (chars "e4{ [%clk 1:40:57] }e5 {x} c4") = chars "e4e5  c4"
  /\ normalize "e4{ [%clk 1:40:57] }e5" = ["e4e5"].
Proof.
  split.
  - refine (eq_trans (@annotation_deleted_in_place (chars "e4")
              (chars " [%clk 1:40:57] ") (chars "e5 {x} c4") _ _) _);
      vm_compute; reflexivity.
  - vm_compute. reflexivity.
Defined.

(** X3: the second substitution returns a text unchanged exactly when no
    digit in it has a period behind it, and its result is such a text: a
    second pass finds nothing to remove. *)
Theorem move_numbers_all_removed (s : text) :
  (strip_move_numbers s = s <-> numdot s = false)
  /\ strip_move_numbers (strip_move_numbers s) = strip_move_numbers s.
Proof.
  split.
  - split; [|apply strip_move_numbers_fixed].
    intros E. rewrite <- E. apply numdot_strip_move_numbers.
  - apply strip_move_numbers_fixed, numdot_strip_move_numbers.
Qed.

(** X4: the token list is the white-space split of the cleaned text; the
    [strip] and the filter of the comprehension change nothing.  No token
    is empty and no token holds a white-space character. *)
Theorem tokens_are_words (movetext : string) :
  normalize movetext = map str (py_split (clean (chars movetext)))
  /\ forall tok, In tok (normalize movetext) ->
       tok <> EmptyString /\ no_space (chars tok).
Proof.
  unfold normalize. rewrite move_tokens_of_split. split; [reflexivity|].
  intros tok H. apply in_map_iff in H as (t & <- & Ht).
  apply split_ws_tokens in Ht as [Hne Hns]; [|reflexivity].
  rewrite chars_str. split; auto.
  destruct t; [congruence | discriminate].
Qed.

Lemma tokens_are_words_witness :
  "Nf3" <> EmptyString /\ no_space (chars "Nf3").
Proof.
  apply (proj2 (tokens_are_words "1. e4 e5 2. Nf3 ")). vm_compute. auto.
Defined.

Lemma spaces_suffix (pre suf : text) : spaces (pre ++ suf) -> spaces suf.
Proof.
  unfold spaces. rewrite forallb_app. intros H.
  now apply andb_true_iff in H as [_ H].
Qed.

Lemma spaces_no_brace_pair s : spaces s -> brace_pair s = false.
Proof.
  unfold spaces. induction s as [|c s IH]; simpl; auto.
  intros H. apply andb_true_iff in H as [Hc H].
  now rewrite (space_not_lbrace c Hc), IH.
Qed.

Lemma spaces_no_numdot s : spaces s -> numdot s = false.
Proof.
  unfold spaces. induction s as [|c s IH]; auto.
  intros H. simpl in H. apply andb_true_iff in H as [Hc H].
  now rewrite numdot_cons, (space_not_digit c Hc), IH.
Qed.

Lemma spaces_strip_result s : spaces s -> strip_result s = s.
Proof.
  intros H. apply re_sub_no_match. intros pre suf E.
  rewrite E in H. apply spaces_suffix in H.
  now rewrite match_at_result, drop_while_spaces.
Qed.

Lemma spaces_split s : spaces s -> py_split s = [].
Proof.
  unfold spaces, py_split. induction s as [|c s IH]; simpl; auto.
  intros H. apply andb_true_iff in H as [-> H]. auto.
Qed.

(** X5: a transcript of white space only, the empty one included, has no
    tokens, and the translator returns the empty list for it whatever the
    chess package does. *)
Theorem blank_transcript_has_no_moves (movetext : string) :
  spaces (chars movetext) ->
  normalize movetext = []
  /\ forall C : Chess,
       extract_uci_moves_from_movetext (C:=C) (PyStr movetext) = Ok [].
Proof.
  intros H.
  assert (E : normalize movetext = []).
  { unfold normalize, clean. rewrite move_tokens_of_split.
    rewrite strip_annotations_fixed by now apply spaces_no_brace_pair.
    rewrite strip_move_numbers_fixed by now apply spaces_no_numdot.
    rewrite spaces_strip_result, spaces_split by assumption. reflexivity. }
  split; auto. intros C.
  unfold extract_uci_moves_from_movetext, extract_body. now rewrite E.
Qed.

Lemma blank_transcript_has_no_moves_witness :
  normalize "   " = [].
Proof.
  apply (blank_transcript_has_no_moves "   "). reflexivity.
Defined.

(** X6: the normaliser only deletes.  Every character of every token is a
    character of the transcript. *)
Theorem tokens_come_from_transcript (movetext tok : string) (c : chr) :
  In tok (normalize movetext) -> In c (chars tok) -> In c (chars movetext).
Proof.
  unfold normalize. rewrite move_tokens_of_split. intros H Hc.
  apply in_map_iff in H as (t & <- & Ht). rewrite chars_str in Hc.
  apply split_ws_infix in Ht as (a & b & E). simpl in E.
  assert (Hin : In c (clean (chars movetext))).
  { rewrite E. apply in_or_app. right. apply in_or_app. now left. }
  unfold clean, strip_result, strip_move_numbers, strip_annotations in Hin.
  now repeat apply re_sub_in in Hin.
Qed.

Lemma tokens_come_from_transcript_witness :
  In "N"%char (chars "1. e4 e5 2. Nf3").
Proof.
  apply (@tokens_come_from_transcript "1. e4 e5 2. Nf3" "Nf3");
    vm_compute; auto.
Defined.

(** ** The translator *)

Section TranslatorMore.

Context {C : Chess}.

Lemma san_loop_grows toks : forall b acc r,
  san_loop b acc toks = Ok r ->
  exists added, r = acc ++ added /\ length added <= length toks.
Proof.
  induction toks as [|tok toks IH]; intros b acc r H; simpl in H.
  - injection H as <-. exists []. now rewrite app_nil_r.
  - destruct (parse_san b tok) as [m|e].
    + destruct (push b m) as [b1|e].
      * apply IH in H as (added & -> & Hl).
        exists (uci m :: added). rewrite <- app_assoc. simpl. split; auto. lia.
      * destruct (is_move_error e); [|discriminate]. injection H as <-.
        exists [uci m]. simpl. split; auto. lia.
    + destruct (is_move_error e); [|discriminate]. injection H as <-.
      exists []. rewrite app_nil_r. simpl. split; auto. lia.
Qed.

Lemma san_loop_accepted_app b t1 ms b' t2 : forall acc,
  accepted b t1 ms b' ->
  san_loop b acc (t1 ++ t2) = san_loop b' (acc ++ map uci ms) t2.
Proof.
  intros acc H. revert acc.
  induction H as [b|b tok toks m b1 ms b' Hp Hq _ IH]; intros acc; simpl.
  - now rewrite app_nil_r.
  - rewrite Hp, Hq, IH, <- app_assoc. reflexivity.
Qed.

End TranslatorMore.

(** X7: the translator returns at most one identifier for each token: the
    list is never longer than the token list, whatever the chess package
    does. *)
Theorem moves_at_most_tokens {C : Chess} (movetext : string) (l : list string) :
  extract_uci_moves_from_movetext (PyStr movetext) = Ok l ->
  length l <= length (normalize movetext).
Proof.
  unfold extract_uci_moves_from_movetext, extract_body.
  destruct (san_loop new_board [] (normalize movetext)) as [r|e] eqn:E;
    intros H; injection H as <-; [|simpl; lia].
  apply san_loop_grows in E as (added & -> & Hl). exact Hl.
Qed.

Lemma moves_at_most_tokens_witness :
  length ["e2e4"; "e7e5"] <= length (normalize "1. e4 e5 2. Ke3 Nf6").
Proof.
  apply (moves_at_most_tokens (C:=PyChess.engine)). vm_compute. reflexivity.
Defined.

(** X8: tokens that follow do not change what was translated.  With a
    chess package that keeps its promises, the moves for a token list are
    a prefix of the moves for that list with more tokens behind it. *)
Theorem more_tokens_extend_moves {C : Chess} {L : ChessLaws C}
    (b : Board) (acc t1 t2 r1 : list string) :
  san_loop b acc t1 = Ok r1 ->
  exists more, san_loop b acc (t1 ++ t2) = Ok (r1 ++ more).
Proof.
  intros H1.
  destruct (san_loop_longest t1 b acc) as (k & ms & b' & Hk & Ha & Hs & Hl).
  rewrite Hl in H1. injection H1 as <-.
  destruct Hs as [->|(tok & e & Hn & He)].
  - rewrite firstn_all in Ha. rewrite (san_loop_accepted_app t2 _ Ha).
    destruct (san_loop_longest t2 b' (acc ++ map uci ms))
      as (k2 & ms2 & b2 & _ & _ & _ & ->). eauto.
  - apply nth_error_split in Hn as (pre & post & E & Hlen).
    assert (Epre : firstn k t1 = pre).
    { rewrite E, <- Hlen, firstn_app, Nat.sub_diag, firstn_all. simpl.
      now rewrite app_nil_r. }
    rewrite Epre in Ha. rewrite E, <- app_assoc. simpl.
    erewrite san_loop_stops by eassumption.
    rewrite (parse_san_raises He). exists []. now rewrite app_nil_r.
Qed.

Lemma more_tokens_extend_moves_witness :
  exists more,
    san_loop (C:=PyChess.engine) new_board [] (["e4"; "e5"] ++ ["Nf3"; "Nc6"])
    = Ok (["e2e4"; "e7e5"] ++ more).
Proof.
  apply (more_tokens_extend_moves (L:=PyChessFacts.engine_laws)).
  vm_compute. reflexivity.
Defined.

(** ** The prefix generator *)

Section GeneratorMore.

Context {C : Chess}.

Lemma prefix_loop_inv l idx : forall ps bs ps' bs',
  prefix_loop l idx ps bs = Ok (ps', bs') ->
  ps' = ps ++ map (fun i => join " " (slice_to l i)) idx
  /\ bs' = bs ++ map (board_after l) idx
  /\ forall i, In i idx ->
       get_board_ascii (slice_to l i) = Ok (board_after l i).
Proof.
  induction idx as [|i idx IH]; intros ps bs ps' bs' H; simpl in H.
  - injection H as <- <-. rewrite !app_nil_r.
    split; [reflexivity|]. split; [reflexivity|]. intros i [].
  - destruct (get_board_ascii (slice_to l i)) as [s|e] eqn:E; simpl in H;
      [|discriminate].
    apply IH in H as (-> & -> & Hall).
    assert (Ei : board_after l i = s) by (unfold board_after; now rewrite E).
    simpl. rewrite <- !app_assoc, Ei. split; [reflexivity|]. split; [reflexivity|].
    intros j [<-|Hj]; [congruence | auto].
Qed.

Lemma generate_inv l t ps bs :
  generate_move_prefixes l t = Ok (ps, bs) ->
  let idx := py_range (Z.max 1 t) (Z.of_nat (length l) + 1) in
  ps = map (fun i => join " " (firstn (Z.to_nat i) l)) idx
  /\ bs = map (board_after l) idx
  /\ forall i, In i idx ->
       get_board_ascii (firstn (Z.to_nat i) l) = Ok (board_after l i).
Proof.
  intros H. cbv zeta. unfold generate_move_prefixes in H.
  apply prefix_loop_inv in H as (-> & -> & Hall). simpl.
  split; [|split; [reflexivity|]].
  - apply map_ext_in. intros i Hi. apply py_range_in in Hi.
    now rewrite slice_to_firstn by lia.
  - intros i Hi. rewrite <- (Hall i Hi). apply py_range_in in Hi.
    now rewrite slice_to_firstn by lia.
Qed.

Lemma py_range_app lo mid hi :
  (lo <= mid <= hi)%Z -> py_range lo hi = py_range lo mid ++ py_range mid hi.
Proof.
  intros H. remember (Z.to_nat (mid - lo)) as d eqn:Hd.
  revert lo H Hd. induction d as [|d IH]; intros lo H Hd.
  - replace mid with lo by lia. now rewrite (@py_range_empty lo lo) by lia.
  - rewrite (@py_range_cons lo hi), (@py_range_cons lo mid) by lia.
    simpl. f_equal. apply IH; lia.
Qed.

Lemma join_snoc (l : list string) (u : string) :
  l <> [] -> join " " (l ++ [u]) = (join " " l ++ " " ++ u)%string.
Proof.
  unfold join. induction l as [|x l IH]; [congruence|]. intros _.
  destruct l as [|y l].
  - reflexivity.
  - change (String.concat " " ((x :: y :: l) ++ [u]))
      with (x ++ " " ++ String.concat " " ((y :: l) ++ [u]))%string.
    rewrite IH by discriminate.
    change (String.concat " " (x :: y :: l))
      with (x ++ " " ++ String.concat " " (y :: l))%string.
    set (j := String.concat " " (y :: l)).
    clearbody j. clear.
    induction x as [|c x IHx]; simpl.
    + reflexivity.
    + f_equal. exact IHx.
Qed.

Lemma firstn_snoc {A : Type} (l : list A) (m : nat) (u : A) :
  nth_error l m = Some u -> firstn (S m) l = firstn m l ++ [u].
Proof.
  revert m. induction l as [|x l IH]; intros [|m] H; simpl in *;
    try discriminate.
  - now injection H as ->.
  - f_equal. auto.
Qed.

End GeneratorMore.

(** X9: whenever the generator returns, for any list of strings and any
    threshold, its two lists have the same length and are aligned: the
    k-th board is what the renderer returns for the moves of the k-th
    prefix. *)
Theorem rows_are_aligned {C : Chess} (l : list string) (t : Z)
    (ps bs : list string) :
  generate_move_prefixes l t = Ok (ps, bs) ->
  length ps = length bs
  /\ forall k p, nth_error ps k = Some p ->
       exists len board,
         len = Z.to_nat (Z.max 1 t) + k
         /\ p = join " " (firstn len l)
         /\ get_board_ascii (firstn len l) = Ok board
         /\ nth_error bs k = Some board.
Proof.
  intros H. apply generate_inv in H as (-> & -> & Hall).
  split; [now rewrite !length_map|].
  intros k p Hk. rewrite nth_error_map in Hk.
  destruct (nth_error (py_range _ _) k) as [i|] eqn:Ei; [|discriminate].
  injection Hk as <-.
  assert (Hin : In i (py_range (Z.max 1 t) (Z.of_nat (length l) + 1)))
    by (eapply nth_error_In; eauto).
  assert (Hk : k < Z.to_nat (Z.of_nat (length l) + 1 - Z.max 1 t)).
  { rewrite <- py_range_length. apply nth_error_Some. congruence. }
  rewrite py_range_nth in Ei by assumption. injection Ei as <-.
  exists (Z.to_nat (Z.max 1 t) + k), (board_after l (Z.max 1 t + Z.of_nat k)).
  replace (Z.to_nat (Z.max 1 t) + k) with (Z.to_nat (Z.max 1 t + Z.of_nat k))
    by lia.
  repeat split; auto.
  rewrite nth_error_map, py_range_nth by assumption. reflexivity.
Qed.

Lemma rows_are_aligned_witness :
  length ["e2e4"; "e2e4 e7e5"] = length
    [board_after (C:=PyChess.engine) ["e2e4"; "e7e5"] 1;
     board_after (C:=PyChess.engine) ["e2e4"; "e7e5"] 2].
Proof.
  apply (@rows_are_aligned PyChess.engine ["e2e4"; "e7e5"] 0).
  vm_compute. reflexivity.
Defined.

(** X10: each prefix after the first is the one before it with a blank and
    the next identifier behind it. *)
Theorem prefixes_grow_by_one_move {C : Chess} (l : list string) (t : Z)
    (ps bs : list string) (k : nat) (p q : string) :
  generate_move_prefixes l t = Ok (ps, bs) ->
  nth_error ps k = Some p ->
  nth_error ps (S k) = Some q ->
  exists u, nth_error l (Z.to_nat (Z.max 1 t) + k) = Some u
            /\ q = (p ++ " " ++ u)%string.
Proof.
  intros H Hp Hq. apply generate_inv in H as (-> & _ & _).
  rewrite nth_error_map in Hp, Hq.
  destruct (nth_error (py_range _ _) k) as [i|] eqn:Ei; [|discriminate].
  destruct (nth_error (py_range _ _) (S k)) as [j|] eqn:Ej; [|discriminate].
  injection Hp as <-. injection Hq as <-.
  assert (Hk : S k < Z.to_nat (Z.of_nat (length l) + 1 - Z.max 1 t)).
  { rewrite <- py_range_length. apply nth_error_Some. congruence. }
  rewrite py_range_nth in Ei, Ej by lia.
  assert (Hi : i = (Z.max 1 t + Z.of_nat k)%Z) by congruence.
  assert (Hj : j = (Z.max 1 t + Z.of_nat (S k))%Z) by congruence.
  clear Ei Ej. subst i j.
  set (m := Z.to_nat (Z.max 1 t) + k).
  replace (Z.to_nat (Z.max 1 t + Z.of_nat k)) with m by lia.
  replace (Z.to_nat (Z.max 1 t + Z.of_nat (S k))) with (S m) by lia.
  destruct (nth_error l m) as [u|] eqn:Eu.
  - exists u. split; auto. rewrite (firstn_snoc _ _ Eu).
    apply join_snoc. destruct l as [|x l]; [now destruct m|].
    subst m. replace (Z.to_nat (Z.max 1 t) + k) with (S (Z.to_nat (Z.max 1 t) + k - 1)) by lia.
    discriminate.
  - apply nth_error_None in Eu. lia.
Qed.

Lemma prefixes_grow_by_one_move_witness :
  exists u, nth_error ["e2e4"; "e7e5"; "g1f3"] (Z.to_nat (Z.max 1 2) + 0) = Some u
            /\ "e2e4 e7e5 g1f3" = ("e2e4 e7e5" ++ " " ++ u)%string.
Proof.
  apply (@prefixes_grow_by_one_move PyChess.engine
           ["e2e4"; "e7e5"; "g1f3"] 2
           ["e2e4 e7e5"; "e2e4 e7e5 g1f3"]
           [board_after (C:=PyChess.engine) ["e2e4"; "e7e5"; "g1f3"] 2;
            board_after (C:=PyChess.engine) ["e2e4"; "e7e5"; "g1f3"] 3] 0);
    vm_compute; reflexivity.
Defined.

(** X11: a higher threshold drops rows from the front and changes no other
    row.  If the generator returns for a threshold, it returns for every
    higher one, with the first rows left out. *)
Theorem higher_threshold_drops_front {C : Chess} (l : list string)
    (t1 t2 : Z) (ps bs : list string) :
  (t1 <= t2)%Z ->
  generate_move_prefixes l t1 = Ok (ps, bs) ->
  let d := Z.to_nat (Z.max 1 t2 - Z.max 1 t1) in
  generate_move_prefixes l t2 = Ok (skipn d ps, skipn d bs).
Proof.
  intros Ht H d. apply generate_inv in H as (-> & -> & Hall).
  set (hi := (Z.of_nat (length l) + 1)%Z) in *.
  set (a1 := Z.max 1 t1) in *. set (a2 := Z.max 1 t2) in *.
  assert (Ha : (a1 <= a2)%Z) by lia.
  unfold generate_move_prefixes. fold hi a2.
  destruct (Z.le_gt_cases a2 hi) as [Hle|Hgt].
  - rewrite (@py_range_app a1 a2 hi) in * by lia.
    rewrite prefix_loop_ok.
    + simpl. rewrite !map_app, !skipn_app, !length_map, py_range_length.
      fold d. rewrite Nat.sub_diag. simpl.
      rewrite !skipn_all2 by (rewrite length_map, py_range_length; lia).
      simpl. f_equal. f_equal. apply map_ext_in. intros i Hi.
      apply py_range_in in Hi. now rewrite slice_to_firstn by lia.
    + intros i Hi. exists (board_after l i).
      rewrite <- (Hall i) by (apply in_or_app; now right).
      apply py_range_in in Hi. now rewrite slice_to_firstn by lia.
  - rewrite (@py_range_empty a2 hi) by lia. simpl.
    rewrite !skipn_all2 by (rewrite length_map, py_range_length; lia).
    reflexivity.
Qed.

Lemma higher_threshold_drops_front_witness :
  generate_move_prefixes (C:=PyChess.engine) ["e2e4"; "e7e5"; "g1f3"] 3
  = Ok (skipn 2 ["e2e4"; "e2e4 e7e5"; "e2e4 e7e5 g1f3"],
        skipn 2 [board_after (C:=PyChess.engine) ["e2e4"; "e7e5"; "g1f3"] 1;
                 board_after (C:=PyChess.engine) ["e2e4"; "e7e5"; "g1f3"] 2;
                 board_after (C:=PyChess.engine) ["e2e4"; "e7e5"; "g1f3"] 3]).
Proof.
  refine (@higher_threshold_drops_front PyChess.engine
            ["e2e4"; "e7e5"; "g1f3"] 1 3 _ _ _ _).
  - lia.
  - vm_compute. reflexivity.
Defined.

Section GeneratorFallback.

Context {C : Chess}.

Lemma replay_app_inv l1 : forall b l2 b',
  replay b (l1 ++ l2) = Ok b' -> exists b1, replay b l1 = Ok b1.
Proof.
  induction l1 as [|u l1 IH]; intros b l2 b' H; simpl in *.
  - eauto.
  - destruct (from_uci u) as [m|e]; simpl in *; [|discriminate].
    destruct (push b m) as [b1|e]; simpl in *; [|discriminate].
    eauto.
Qed.

Lemma replay_firstn l b b' i :
  replay b l = Ok b' -> exists bi, replay b (firstn i l) = Ok bi.
Proof.
  intros H. rewrite <- (firstn_skipn i l) in H.
  now apply replay_app_inv in H.
Qed.

End GeneratorFallback.

(** X12: one identifier that does not parse does not stop the generator
    on a list whose identifiers before it replay.  It returns all its
    rows, and every row whose prefix reaches the bad identifier shows the
    initial position. *)
Theorem bad_identifier_rows {C : Chess} (pre post : list string) (u : string)
    (b : Board) (e : exn) (t : Z) :
  replay new_board pre = Ok b ->
  from_uci u = Raise e ->
  is_move_error e = true ->
  exists ps bs,
    generate_move_prefixes (pre ++ u :: post) t = Ok (ps, bs)
    /\ forall k board,
         nth_error bs k = Some board ->
         length pre < Z.to_nat (Z.max 1 t) + k ->
         board = board_str new_board.
Proof.
  intros Hr Hu He. set (l := pre ++ u :: post).
  assert (Hall : forall i, (1 <= i)%Z ->
            get_board_ascii (slice_to l i) =
            Ok (if Z.to_nat i <=? length pre
                then board_after l i else board_str new_board)).
  { intros i Hi. rewrite slice_to_firstn by lia.
    destruct (Nat.leb_spec (Z.to_nat i) (length pre)) as [Hle|Hgt].
    - unfold board_after. rewrite slice_to_firstn by lia.
      unfold l. rewrite firstn_app.
      replace (Z.to_nat i - length pre) with 0 by lia.
      rewrite firstn_0, app_nil_r.
      destruct (@replay_firstn C pre new_board b (Z.to_nat i) Hr) as [bi Hbi].
      apply replay_board_loop in Hbi. unfold get_board_ascii.
      now rewrite Hbi.
    - unfold l. rewrite firstn_app, firstn_all2 by lia.
      destruct (Z.to_nat i - length pre) as [|d] eqn:Ed; [lia|]. simpl.
      unfold get_board_ascii. erewrite board_loop_fallback; eauto.
      + now rewrite He.
      + now rewrite Hu. }
  unfold generate_move_prefixes. fold l.
  rewrite prefix_loop_ok.
  2:{ intros i Hi. apply py_range_in in Hi. rewrite Hall by lia. eauto. }
  eexists. eexists. split; [reflexivity|].
  intros k board Hk Hlen. simpl in Hk. rewrite nth_error_map in Hk.
  destruct (nth_error (py_range _ _) k) as [i|] eqn:Ei; [|discriminate].
  injection Hk as <-.
  assert (Hk : k < Z.to_nat (Z.of_nat (length l) + 1 - Z.max 1 t)).
  { rewrite <- py_range_length. apply nth_error_Some. congruence. }
  rewrite py_range_nth in Ei by assumption.
  assert (Hi : i = (Z.max 1 t + Z.of_nat k)%Z) by congruence. subst i.
  unfold board_after. rewrite Hall by lia.
  destruct (Nat.leb_spec (Z.to_nat (Z.max 1 t + Z.of_nat k)) (length pre));
    [lia | reflexivity].
Qed.

Lemma bad_identifier_rows_witness :
  exists ps bs,
    generate_move_prefixes (C:=PyChess.engine) (["e2e4"] ++ "zz" :: ["e7e5"]) 1
    = Ok (ps, bs)
    /\ forall k board,
         nth_error bs k = Some board ->
         length ["e2e4"] < Z.to_nat (Z.max 1 1) + k ->
         board = board_str (Chess:=PyChess.engine) new_board.
Proof.
  eapply (@bad_identifier_rows PyChess.engine ["e2e4"] ["e7e5"] "zz");
    vm_compute; reflexivity.
Defined.

(** ** The corpus driver *)

Section DriverMore.

Context {C : Chess}.

Lemma table_app_empty_r a : table_app a empty_table = a.
Proof. destruct a. unfold table_app. simpl. now rewrite !app_nil_r. Qed.

Lemma table_app_empty_l a : table_app empty_table a = a.
Proof. now destruct a. Qed.

Lemma table_app_assoc a b c :
  table_app (table_app a b) c = table_app a (table_app b c).
Proof. unfold table_app. simpl. now rewrite !app_assoc. Qed.

(** What a game adds does not depend on what was collected before it. *)
Lemma process_game_acc acc g :
  process_game acc g = t <- process_game empty_table g ;; Ok (table_app acc t).
Proof.
  unfold process_game.
  destruct (lookup "movetext" g) as [v|]; simpl;
    [|now rewrite table_app_empty_r].
  assert (H : forall r : result (list string),
    (uci_moves <- r ;;
     if length uci_moves =? 0 then Ok acc
     else if length uci_moves <? 15 then Ok acc
     else pb <- generate_move_prefixes uci_moves default_min_moves ;;
          Ok {| uci_prefix := uci_prefix acc ++ fst pb;
                board_ascii := board_ascii acc ++ snd pb |})
    = t <- (uci_moves <- r ;;
            if length uci_moves =? 0 then Ok empty_table
            else if length uci_moves <? 15 then Ok empty_table
            else pb <- generate_move_prefixes uci_moves default_min_moves ;;
                 Ok {| uci_prefix := uci_prefix empty_table ++ fst pb;
                       board_ascii := board_ascii empty_table ++ snd pb |}) ;;
      Ok (table_app acc t)).
  { intros [l|e]; simpl; auto.
    destruct (length l =? 0); simpl; [now rewrite table_app_empty_r|].
    destruct (length l <? 15); simpl; [now rewrite table_app_empty_r|].
    destruct (generate_move_prefixes l default_min_moves) as [pb|e]; auto. }
  destruct v; [simpl; now rewrite table_app_empty_r | apply H | apply H].
Qed.

Lemma run_games_acc ds : forall acc,
  run_games ds acc = t <- run_games ds empty_table ;; Ok (table_app acc t).
Proof.
  induction ds as [|g ds IH]; intros acc; simpl.
  - now rewrite table_app_empty_r.
  - rewrite (process_game_acc acc g).
    destruct (process_game empty_table g) as [t|e]; simpl; auto.
    rewrite (IH (table_app acc t)), (IH t).
    destruct (run_games ds empty_table) as [t'|e]; simpl; auto.
    now rewrite table_app_assoc.
Qed.

(** The games the driver runs over are the first so many of the corpus. *)
Lemma process_dataset_run ds mg :
  exists k, process_dataset ds mg = run_games (firstn k ds) empty_table.
Proof.
  destruct mg as [m|].
  - destruct (Z.eq_dec m 0) as [->|Hm].
    + exists (length ds). rewrite firstn_all.
      change (process_dataset ds (Some 0%Z)) with (process_dataset ds None).
      apply process_dataset_none.
    + eexists. now apply process_dataset_cap.
  - exists (length ds). rewrite firstn_all. apply process_dataset_none.
Qed.

Lemma process_game_columns g t :
  process_game empty_table g = Ok t ->
  length (uci_prefix t) = length (board_ascii t).
Proof.
  unfold process_game.
  destruct (lookup "movetext" g) as [v|]; [|intros H; now injection H as <-].
  assert (H : forall r : result (list string),
    (uci_moves <- r ;;
     if length uci_moves =? 0 then Ok empty_table
     else if length uci_moves <? 15 then Ok empty_table
     else pb <- generate_move_prefixes uci_moves default_min_moves ;;
          Ok {| uci_prefix := uci_prefix empty_table ++ fst pb;
                board_ascii := board_ascii empty_table ++ snd pb |}) = Ok t ->
    length (uci_prefix t) = length (board_ascii t)).
  { intros [l|e]; simpl; [|discriminate].
    destruct (length l =? 0); [intros H; now injection H as <-|].
    destruct (length l <? 15); [intros H; now injection H as <-|].
    destruct (generate_move_prefixes l default_min_moves) as [[ps bs]|e] eqn:E;
      simpl; [|discriminate].
    intros H; injection H as <-. simpl.
    apply generate_inv in E as (-> & -> & _). now rewrite !length_map. }
  destruct v; [intros H'; now injection H' as <- | apply H | apply H].
Qed.

Lemma run_games_columns ds : forall t,
  run_games ds empty_table = Ok t ->
  length (uci_prefix t) = length (board_ascii t).
Proof.
  induction ds as [|g ds IH]; intros t H; simpl in H.
  - now injection H as <-.
  - destruct (process_game empty_table g) as [tg|e] eqn:Eg; simpl in H;
      [|discriminate].
    rewrite run_games_acc in H.
    destruct (run_games ds empty_table) as [t'|e] eqn:Er; simpl in H;
      [|discriminate].
    injection H as <-. simpl. rewrite !length_app.
    now rewrite (process_game_columns _ Eg), (IH _ eq_refl).
Qed.

End DriverMore.

(** X13: the table of a corpus made of two parts is the table of the
    first part with the table of the second under it: games are handled
    one by one, in corpus order, and none depends on another. *)
Theorem corpus_concatenation {C : Chess} (ds1 ds2 : list game) :
  process_dataset (ds1 ++ ds2) None =
  (t1 <- process_dataset ds1 None ;;
   t2 <- process_dataset ds2 None ;;
   Ok (table_app t1 t2)).
Proof.
  rewrite !process_dataset_none, run_games_app.
  destruct (run_games ds1 empty_table) as [t1|e]; simpl; auto.
  apply run_games_acc.
Qed.

(** X14: the two columns of the table the driver returns have the same
    length, for every corpus and every maximum game count. *)
Theorem table_columns_same_length {C : Chess} (ds : list game)
    (max_games : option Z) (t : table) :
  process_dataset ds max_games = Ok t ->
  length (uci_prefix t) = length (board_ascii t).
Proof.
  destruct (process_dataset_run ds max_games) as [k ->].
  apply run_games_columns.
Qed.

Lemma table_columns_same_length_witness :
  length (@nil string) = length (@nil string).
Proof.
  apply (@table_columns_same_length PyChess.engine
           [[("movetext", PyStr "1. e4 e5")]] None empty_table).
  vm_compute. reflexivity.
Defined.

Section LawfulDriver.

Context {C : Chess} {L : ChessLaws C}.

Lemma extract_returns v : exists l, extract_uci_moves_from_movetext v = Ok l.
Proof.
  unfold extract_uci_moves_from_movetext.
  destruct (extract_body v); eauto.
Qed.

Lemma process_game_returns g :
  exists t, process_game empty_table g = Ok t.
Proof.
  unfold process_game. destruct (lookup "movetext" g) as [v|]; eauto.
  assert (H : exists t,
    (uci_moves <- extract_uci_moves_from_movetext v ;;
     if length uci_moves =? 0 then Ok empty_table
     else if length uci_moves <? 15 then Ok empty_table
     else pb <- generate_move_prefixes uci_moves default_min_moves ;;
          Ok {| uci_prefix := uci_prefix empty_table ++ fst pb;
                board_ascii := board_ascii empty_table ++ snd pb |}) = Ok t).
  { destruct (extract_returns v) as [l Hl]. rewrite Hl. simpl.
    destruct (length l =? 0); eauto. destruct (length l <? 15); eauto.
    rewrite (generate_canonical default_min_moves (extract_canonical _ Hl)).
    simpl. eauto. }
  destruct v; eauto.
Qed.

Lemma run_games_returns ds : exists t, run_games ds empty_table = Ok t.
Proof.
  induction ds as [|g ds [t' IH]]; simpl; eauto.
  destruct (process_game_returns g) as [t Ht]. rewrite Ht. simpl.
  rewrite run_games_acc, IH. simpl. eauto.
Qed.

End LawfulDriver.

(** X15: with a chess package that keeps its promises the driver returns
    a table for every corpus and every maximum game count: no record and
    no count makes it raise. *)
Theorem driver_never_raises {C : Chess} {L : ChessLaws C} (ds : list game)
    (max_games : option Z) :
  exists t, process_dataset ds max_games = Ok t.
Proof.
  destruct (process_dataset_run ds max_games) as [k ->].
  apply run_games_returns.
Qed.

Lemma driver_never_raises_witness :
  exists t,
    process_dataset (C:=PyChess.engine)
      [[("movetext", PyInt 3)]; []; [("movetext", PyStr "1. e4 {")]]
      (Some (-4)%Z) = Ok t.
Proof. apply (driver_never_raises (L:=PyChessFacts.engine_laws)). Defined.

(** X16: a negative maximum game count is not ignored: it leaves no game
    to process and the table is empty.  A count that is at least the
    number of records changes nothing. *)
Theorem cap_edge_cases {C : Chess} (ds : list game) (m : Z) :
  ((m < 0)%Z -> process_dataset ds (Some m) = Ok empty_table)
  /\ ((Z.of_nat (length ds) <= m)%Z ->
      process_dataset ds (Some m) = process_dataset ds None).
Proof.
  split; intros H.
  - rewrite process_dataset_cap by lia.
    replace (Z.to_nat (Z.min (Z.of_nat (length ds)) m)) with 0 by lia.
    reflexivity.
  - destruct (Z.eq_dec m 0) as [->|Hm]; [reflexivity|].
    rewrite process_dataset_cap, process_dataset_none by assumption.
    now rewrite Z.min_l, Nat2Z.id, firstn_all by lia.
Qed.

Lemma cap_edge_cases_witness :
  process_dataset (C:=PyChess.engine) [[("movetext", PyStr "1. e4 e5")]]
    (Some (-1)%Z) = Ok empty_table.
Proof.
  apply (proj1 (cap_edge_cases (C:=PyChess.engine)
                  [[("movetext", PyStr "1. e4 e5")]] (-1)%Z)).
  lia.
Defined.

Section RowsOfTable.

Context {C : Chess}.

Lemma process_game_rows g t p :
  process_game empty_table g = Ok t -> In p (uci_prefix t) -> row_of [g] p.
Proof.
  unfold process_game.
  destruct (lookup "movetext" g) as [v|] eqn:Ev;
    [|intros H; injection H as <-; intros []].
  assert (H : forall r : result (list string),
    extract_uci_moves_from_movetext v = r ->
    (uci_moves <- r ;;
     if length uci_moves =? 0 then Ok empty_table
     else if length uci_moves <? 15 then Ok empty_table
     else pb <- generate_move_prefixes uci_moves default_min_moves ;;
          Ok {| uci_prefix := uci_prefix empty_table ++ fst pb;
                board_ascii := board_ascii empty_table ++ snd pb |}) = Ok t ->
    In p (uci_prefix t) -> row_of [g] p).
  { intros [l|e] Hl; simpl; [|discriminate].
    destruct (length l =? 0); [intros H; injection H as <-; intros []|].
    destruct (length l <? 15); [intros H; injection H as <-; intros []|].
    destruct (generate_move_prefixes l default_min_moves) as [[ps bs]|e] eqn:E;
      simpl; [|discriminate].
    intros H; injection H as <-. simpl. intros Hp.
    apply generate_inv in E as (-> & _ & _).
    apply in_map_iff in Hp as (i & <- & Hi). apply py_range_in in Hi.
    unfold default_min_moves in Hi.
    exists g, v, l, (Z.to_nat i). repeat split; auto; try lia. now left. }
  destruct v; [intros H'; injection H' as <-; intros [] | |]; now apply H.
Qed.

End RowsOfTable.

(** X17: every row of the table holds at least 15 moves: its prefix is
    the first [len] identifiers, joined by blanks, of the move list of a
    record that was processed, with [len] between 15 and the length of
    that list. *)
Theorem rows_hold_fifteen_moves {C : Chess} (ds : list game) (t : table)
    (p : string) :
  process_dataset ds None = Ok t ->
  In p (uci_prefix t) ->
  exists g v l len,
    In g ds /\ lookup "movetext" g = Some v
    /\ extract_uci_moves_from_movetext v = Ok l
    /\ 15 <= len <= length l
    /\ p = join " " (firstn len l).
Proof.
  rewrite process_dataset_none. revert t.
  induction ds as [|g ds IH]; intros t H Hp; simpl in H.
  - injection H as <-. destruct Hp.
  - destruct (process_game empty_table g) as [tg|e] eqn:Eg; simpl in H;
      [|discriminate].
    rewrite run_games_acc in H.
    destruct (run_games ds empty_table) as [t'|e] eqn:Er; simpl in H;
      [|discriminate].
    injection H as <-. simpl in Hp. apply in_app_or in Hp as [Hp|Hp].
    + destruct (@process_game_rows C g tg p Eg Hp) as (g' & v & l & len & Hg & Hr).
      destruct Hg as [<-|[]]. exists g, v, l, len. split; [now left | exact Hr].
    + destruct (IH t' eq_refl Hp) as (g' & v & l & len & Hg & Hr).
      exists g', v, l, len. split; [now right | exact Hr].
Qed.

Lemma rows_hold_fifteen_moves_witness :
  exists g v l len,
    In g [[("movetext", PyStr "1. e4 e5 2. Nf3 Nc6 3. Bb5 a6 4. Ba4 Nf6 5. O-O Be7 6. Re1 b5 7. Bb3 d6 8. c3 O-O")]]
    /\ lookup "movetext" g = Some v
    /\ extract_uci_moves_from_movetext (C:=PyChess.engine) v = Ok l
    /\ 15 <= len <= length l
    /\ "e2e4 e7e5 g1f3 b8c6 f1b5 a7a6 b5a4 g8f6 e1g1 f8e7 f1e1 b7b5 a4b3 d7d6 c2c3"
       = join " " (firstn len l).
Proof.
  eapply (@rows_hold_fifteen_moves PyChess.engine).
  - vm_compute. reflexivity.
  - vm_compute. left. reflexivity.
Defined.

(** X18: with a chess package that keeps its promises, a record whose
    transcript gives n moves adds n - 14 rows to the table when n is 15
    or more, and none when it is less. *)
Theorem rows_per_game {C : Chess} {L : ChessLaws C} (g : game) (v : pyval)
    (l : list string) :
  lookup "movetext" g = Some v ->
  extract_uci_moves_from_movetext v = Ok l ->
  exists t, process_game empty_table g = Ok t
            /\ length (uci_prefix t) = length l - 14
            /\ length (board_ascii t) = length l - 14.
Proof.
  intros Hv Hl. unfold process_game. rewrite Hv.
  assert (H : exists t,
    (uci_moves <- extract_uci_moves_from_movetext v ;;
     if length uci_moves =? 0 then Ok empty_table
     else if length uci_moves <? 15 then Ok empty_table
     else pb <- generate_move_prefixes uci_moves default_min_moves ;;
          Ok {| uci_prefix := uci_prefix empty_table ++ fst pb;
                board_ascii := board_ascii empty_table ++ snd pb |}) = Ok t
    /\ length (uci_prefix t) = length l - 14
    /\ length (board_ascii t) = length l - 14).
  { rewrite Hl. simpl.
    destruct (Nat.eqb_spec (length l) 0) as [E|E].
    { exists empty_table. rewrite E. auto. }
    destruct (Nat.ltb_spec (length l) 15).
    { exists empty_table. simpl. repeat split; lia. }
    rewrite (generate_canonical default_min_moves (extract_canonical _ Hl)).
    simpl. eexists. split; [reflexivity|]. simpl.
    rewrite !length_map, py_range_length. unfold default_min_moves. lia. }
  destruct v; exact H.
Qed.

Lemma rows_per_game_witness :
  exists t,
    process_game (C:=PyChess.engine) empty_table
      [("movetext", PyStr "1. e4 e5 2. Nf3 Nc6 3. Bb5 a6 4. Ba4 Nf6 5. O-O Be7 6. Re1 b5 7. Bb3 d6 8. c3 O-O")]
    = Ok t
    /\ length (uci_prefix t) = 16 - 14
    /\ length (board_ascii t) = 16 - 14.
Proof.
  refine (@rows_per_game PyChess.engine PyChessFacts.engine_laws _
    (PyStr "1. e4 e5 2. Nf3 Nc6 3. Bb5 a6 4. Ba4 Nf6 5. O-O Be7 6. Re1 b5 7. Bb3 d6 8. c3 O-O")
    ["e2e4"; "e7e5"; "g1f3"; "b8c6"; "f1b5"; "a7a6"; "b5a4"; "g8f6";
     "e1g1"; "f8e7"; "f1e1"; "b7b5"; "a4b3"; "d7d6"; "c2c3"; "e8g8"] _ _).
  - reflexivity.
  - vm_compute. reflexivity.
Defined.

(** X19: a maximum game count cuts the table and changes no row: when the
    whole corpus gives a table, the run with a count other than 0 gives
    a table that is the upper part of it. *)
Theorem capped_table_is_upper_part {C : Chess} (ds : list game) (m : Z)
    (full : table) :
  m <> 0%Z ->
  process_dataset ds None = Ok full ->
  exists part rest,
    process_dataset ds (Some m) = Ok part /\ full = table_app part rest.
Proof.
  intros Hm H. rewrite process_dataset_cap by assumption.
  rewrite process_dataset_none in H.
  set (k := Z.to_nat (Z.min (Z.of_nat (length ds)) m)).
  rewrite <- (firstn_skipn k ds), run_games_app in H.
  destruct (run_games (firstn k ds) empty_table) as [part|e]; simpl in H;
    [|discriminate].
  rewrite run_games_acc in H.
  destruct (run_games (skipn k ds) empty_table) as [rest|e]; simpl in H;
    [|discriminate].
  injection H as <-. eauto.
Qed.

Lemma capped_table_is_upper_part_witness :
  exists part rest,
    process_dataset (C:=PyChess.engine)
      [[("movetext", PyStr "1. e4 e5")]; [("movetext", PyNone)]] (Some 1%Z)
    = Ok part
    /\ empty_table = table_app part rest.
Proof.
  apply (@capped_table_is_upper_part PyChess.engine
           [[("movetext", PyStr "1. e4 e5")]; [("movetext", PyNone)]] 1%Z).
  - discriminate.
  - vm_compute. reflexivity.
Defined.

(** ** The report of [main] and the inspector script *)

Section Reports.

Lemma table_row_inside t i :
  length (uci_prefix t) = length (board_ascii t) ->
  (0 <= i < Z.of_nat (num_rows t))%Z ->
  exists p b, nth_error (uci_prefix t) (Z.to_nat i) = Some p
              /\ table_row t i = Ok (p, b).
Proof.
  unfold num_rows, table_row, getitem. intros Hc Hi.
  destruct (Z.ltb_spec i 0); [lia|]. destruct (Z.ltb_spec i 0); [lia|].
  destruct (nth_error (uci_prefix t) (Z.to_nat i)) as [p|] eqn:Ep.
  2:{ apply nth_error_None in Ep. lia. }
  destruct (nth_error (board_ascii t) (Z.to_nat i)) as [b|] eqn:Eb.
  2:{ apply nth_error_None in Eb. lia. }
  exists p, b. auto.
Qed.


Lemma print_samples_inside t idx :
  length (uci_prefix t) = length (board_ascii t) ->
  (forall i, In i idx -> (0 <= i < Z.of_nat (num_rows t))%Z) ->
  snd (print_samples t idx) = None
  /\ length (fst (print_samples t idx)) = 3 * length idx
  /\ forall i p, In i idx -> nth_error (uci_prefix t) (Z.to_nat i) = Some p ->
       In (nl ++ "  " ++ decimal (Z.to_nat (i + 1)) ++ ". UCI: " ++ p)%string
          (fst (print_samples t idx)).
Proof.
  intros Hc. induction idx as [|i idx IH]; intros Hin; simpl.
  - split; [reflexivity|]. split; [reflexivity|]. intros i p [].
  - destruct (table_row_inside t Hc (Hin i (or_introl eq_refl)))
      as (p & b & Hp & ->).
    destruct IH as (H1 & H2 & H3); [intros j Hj; apply Hin; now right|].
    simpl. repeat split; auto; [lia|].
    intros j q [<-|Hj] Hq.
    + left. congruence.
    + right. right. right. now apply H3.
Qed.


Lemma sample_range_inside n i :
  In i (py_range 0 (Z.min 10 (Z.of_nat n))) -> (0 <= i < Z.of_nat n)%Z.
Proof. intros H. apply py_range_in in H. lia. Qed.

End Reports.

(** X20: the report at the end of [main] never fails on the table the
    driver returned, the empty table included.  It prints two lines and
    then three lines for each of the first rows, ten at most, with the
    number and the prefix of each such row. *)
Theorem main_report_never_fails {C : Chess} (ds : list game)
    (max_games : option Z) (t : table) :
  process_dataset ds max_games = Ok t ->
  snd (main_report t) = None
  /\ length (fst (main_report t)) = 2 + 3 * Nat.min 10 (num_rows t)
  /\ forall k p, k < 10 -> nth_error (uci_prefix t) k = Some p ->
       In (nl ++ "  " ++ decimal (k + 1) ++ ". UCI: " ++ p)%string
          (fst (main_report t)).
Proof.
  intros Hp.
  assert (Hc : length (uci_prefix t) = length (board_ascii t)).
  { destruct (process_dataset_run ds max_games) as [k Hk].
    rewrite Hk in Hp. exact (run_games_columns _ Hp). }
  clear Hp. unfold main_report.
  destruct (@print_samples_inside t
              (py_range 0 (Z.min 10 (Z.of_nat (num_rows t)))) Hc)
    as (H1 & H2 & H3); [intros i; apply sample_range_inside|].
  cbn [fst snd length]. split; [exact H1|]. split.
  - rewrite H2, py_range_length. lia.
  - intros k p Hk Hp. right. right.
    assert (Hn : k < num_rows t).
    { unfold num_rows. apply nth_error_Some. congruence. }
    specialize (H3 (Z.of_nat k) p).
    replace (Z.to_nat (Z.of_nat k + 1)) with (k + 1) in H3 by lia.
    rewrite Nat2Z.id in H3. apply H3; auto.
    replace (Z.of_nat k) with (0 + Z.of_nat k)%Z by lia.
    eapply nth_error_In. apply py_range_nth. lia.
Qed.

Lemma main_report_never_fails_witness :
  exists t,
    process_dataset (C:=PyChess.engine)
      [[("movetext", PyStr "1. e4 e5 2. Nf3 Nc6 3. Bb5 a6 4. Ba4 Nf6 5. O-O Be7 6. Re1 b5 7. Bb3 d6 8. c3 O-O")]]
      None = Ok t
    /\ snd (main_report t) = None
    /\ length (fst (main_report t)) = 2 + 3 * Nat.min 10 (num_rows t).
Proof.
  eexists. split; [vm_compute; reflexivity|].
  refine ((fun H => conj (proj1 H) (proj1 (proj2 H)))
            (@main_report_never_fails PyChess.engine
               [[("movetext", PyStr "1. e4 e5 2. Nf3 Nc6 3. Bb5 a6 4. Ba4 Nf6 5. O-O Be7 6. Re1 b5 7. Bb3 d6 8. c3 O-O")]]
               None _ _)).
  vm_compute. reflexivity.
Defined.


